(** * bgrep: context capture around literal matches in a byte stream

    A shallow embedding of [bgrep.cpp]: the pattern set [Target], the
    [Reader] and [Collector] interfaces, the stream-backed reader, and the
    ring of fixed-size buffers [RingBuffer] with its read cycle [readFrom]
    and its flush [collectTo], followed by the properties of the
    specification that concern them.

    Conventions.
    - A [char] is a [Byte.byte]; a [char *] buffer of known extent is a
      [list Byte.byte]; an [int], [size_t] or [uint64_t] is a [Z].  The C++
      operators [/] and [%] on [int] truncate towards zero: [Z.quot] and
      [Z.rem].  The sums the code forms in [int] do not overflow for any
      slot count the process can allocate ([int_arithmetic_in_range]).
    - A C++ array is a list, read with stdpp's lookup and written with
      stdpp's insert; every index the code uses is in range in the states
      the constructor and [readFrom] produce ([wf]).
    - The sink is the trace of the calls [collect(buffer, size)]; the
      standard error stream is the trace of the [fprintf(stderr, ...)]
      calls.
    - [Reader] is an interface.  [StreamReader] is modelled in full over the
      state of its [std::istream]; [FileReader] reads through the system
      call and is covered by the theorems stated for every [Reader].
      [getBuffer] and [getBufferSize] are declared in the class and defined
      nowhere. *)

From Stdlib Require Import ZArith Lia Bool.
From Stdlib Require Import Strings.Byte Strings.String.
From stdpp Require Import base tactics option list.

Local Open Scope Z_scope.

(** ** Bytes *)

Definition char : Type := Byte.byte.
Definition bytes : Type := list char.

#[global] Instance char_eq_dec : EqDecision char.
Proof. intros a b. destruct (Byte.byte_eq_dec a b); [left | right]; assumption. Defined.

(** The largest [int], 32 bits wide. *)
Definition INT_MAX : Z := 2 ^ 31 - 1.

(** [str "ab"] is the byte content of a C string literal. *)
Definition str (s : string) : bytes := String.list_byte_of_string s.

(** ** The C library's [memmem] *)

(** [needle] is found at the very start of [haystack]: the comparison
    [memmem] makes at one offset. *)
Fixpoint starts_with (needle haystack : bytes) : bool :=
  match needle, haystack with
  | [], _ => true
  | _ :: _, [] => false
  | a :: needle', b :: haystack' =>
      if decide (a = b) then starts_with needle' haystack' else false
  end.

(** [memmem(haystack, hlen, needle, nlen)] is not code of the repository; it
    comes from the C library and is modelled from its manual page.  It
    returns a pointer to the first occurrence of the [nlen] bytes of
    [needle] inside the [hlen] bytes of [haystack], and [NULL] when there is
    none.  An empty needle occurs at offset 0 (glibc returns [haystack]
    itself).  The result here is the offset of the occurrence; [None]
    stands for [NULL]. *)
Fixpoint memmem (haystack needle : bytes) : option nat :=
  if starts_with needle haystack then Some 0%nat
  else match haystack with
       | [] => None
       | _ :: haystack' => S <$> memmem haystack' needle
       end.

(** ** class Target *)

Module Target.

(** [std::vector<std::string> _targets] *)
Record t : Type := Build { _targets : list bytes }.

(** [Target()] *)
Definition new : t := Build [].

(** [void Target::addTarget(const std::string &target)] *)
Definition addTarget (self : t) (target : bytes) : t :=
  Build (_targets self ++ [target]).

(** The [for] loop of [Target::match] from index [i] on, over the still
    unvisited targets [rest]: the result is the final value of [matched],
    paired with the number of [memmem] calls the loop makes.  The [break]
    is the [true] branch, which does not recurse. *)
Fixpoint match_loop (probe : bytes) (rest : list bytes) : bool * nat :=
  match rest with
  | [] => (false, 0%nat)
  | target :: rest' =>
      match memmem probe target with
      | Some _ => (true, 1%nat)
      | None => let '(matched, calls) := match_loop probe rest' in
                (matched, S calls)
      end
  end.

(** [bool Target::match(const char *str, size_t len) const]: the probed
    bytes are the first [len] bytes at [str]; [readFrom] passes the slot
    and the count the reader returned. *)
Definition match_ (self : t) (buffer : bytes) (len : Z) : bool :=
  fst (match_loop (take (Z.to_nat len) buffer) (_targets self)).

(** The number of [memmem] calls made by one call of [match]. *)
Definition match_calls (self : t) (buffer : bytes) (len : Z) : nat :=
  snd (match_loop (take (Z.to_nat len) buffer) (_targets self)).

End Target.

(** ** class Reader, class Collector and what they leave behind *)

(** The outcome of [int read(char *buffer, size_t buffer_size)]: the value
    returned and the bytes the call stored at the front of [buffer]. *)
Record read_result : Type := ReadResult { nread : Z; stored : bytes }.

(** [class Reader]: [read] and [tell], over the reader's own state. *)
Class Reader (R : Type) : Type := {
  read : R → Z → read_result * R;
  tell : R → Z
}.

(** One call [collector->collect(_buffer[i], _buffer_size)]: the slot whose
    address is passed and the bytes found there. *)
Record call : Type := Collect { slot : Z; data : bytes }.

(** One [fprintf(stderr, ...)]. *)
Inductive line : Type :=
  | Scanned (gib : Z)   (* "%llu scanned\n" *)
  | Matched (pos : Z).  (* "%llu matched\n" *)

(** What one read cycle sends out. *)
Record output : Type := Output { collected : list call; logged : list line }.

(** The bytes a [StreamCollector] has written after the given calls. *)
Definition written (calls : list call) : bytes := concat (data <$> calls).

(** ** class StreamReader over a [std::istream] *)

Module StreamReader.

(** The state of the [std::istream]: the characters not yet extracted,
    the get position, and the state bits.  Extracting fewer characters
    than asked for sets [eofbit] and [failbit] together. *)
Record t : Type := Build {
  rest : bytes;
  gpos : Z;
  eofbit : bool;
  failbit : bool
}.

Definition new (input : bytes) : t := Build input 0 false false.

(** [int StreamReader::read(char *buffer, size_t buffer_size)] *)
Definition read (self : t) (buffer_size : Z) : read_result * t :=
  if eofbit self then (ReadResult (-1) [], self)
  else if failbit self then (ReadResult 0 [], self)
  else
    let chunk := take (Z.to_nat buffer_size) (rest self) in
    let gcount := Z.of_nat (length chunk) in
    let short := bool_decide (gcount < buffer_size) in
    (ReadResult gcount chunk,
     Build (drop (Z.to_nat buffer_size) (rest self)) (gpos self + gcount)
           short short).

(** [uint64_t StreamReader::tell() const]: [tellg()] is [-1] on a failed
    stream, which converts to [2^64 - 1]. *)
Definition tell (self : t) : Z :=
  if failbit self then 2 ^ 64 - 1 else gpos self.

End StreamReader.

#[global] Instance StreamReader_Reader : Reader StreamReader.t :=
  {| read := StreamReader.read; tell := StreamReader.tell |}.

(** ** class FileReader over a file descriptor *)

Module FileReader.
Section Kernel.

(** The system calls [::open] and [::read] belong to the kernel, whose state
    is [K]: [sys_open k path flags] gives the descriptor or -1, and
    [sys_read k fd size] gives the value returned and the bytes stored in the
    buffer. *)
Context {K : Type}.
Variable sys_open : K → bytes → Z * K.
Variable sys_read : K → Z → Z → read_result * K.

(** [int _fd; uint64_t _pos], and the kernel the calls go to. *)
Record t : Type := Build { _fd : Z; _pos : Z; kernel : K }.

(** [FileReader::FileReader() : _fd(-1), _pos(0)] *)
Definition new (k : K) : t := Build (-1) 0 k.

(** [bool FileReader::open(const std::string &path)] *)
Definition open (self : t) (path : bytes) : bool * t :=
  let '(fd, k) := sys_open (kernel self) path in
  if decide (fd < 0) then (false, Build (_fd self) (_pos self) k)
  else (true, Build fd (_pos self) k).

(** [int FileReader::read(char *buffer, size_t buffer_size)]: [_pos += nread]
    adds the [int] to a [uint64_t], modulo [2^64]. *)
Definition read (self : t) (buffer_size : Z) : read_result * t :=
  let '(result, k) := sys_read (kernel self) (_fd self) buffer_size in
  (result, Build (_fd self) ((_pos self + nread result) `mod` 2 ^ 64) k).

(** [uint64_t FileReader::tell() const] *)
Definition tell (self : t) : Z := _pos self.

End Kernel.
End FileReader.

Definition FileReader_Reader {K : Type} (sys_read : K → Z → Z → read_result * K)
    : Reader (FileReader.t (K := K)) :=
  {| read := FileReader.read sys_read; tell := FileReader.tell |}.

(** ** class RingBuffer *)

Module RingBuffer.

Record t : Type := Build {
  _buffer : list bytes;
  _buffer_num : Z;
  _buffer_size : Z;
  _next_buffer_idx : Z;
  _matched_buffer_idx : Z;
  _target : Target.t;
  _buffer_print_flag : list Z  (* 0: not printed *)
}.

Definition set_buffer (self : t) (i : Z) (content : bytes) : t :=
  Build (<[Z.to_nat i := content]> (_buffer self)) (_buffer_num self)
    (_buffer_size self) (_next_buffer_idx self) (_matched_buffer_idx self)
    (_target self) (_buffer_print_flag self).

Definition set_next_buffer_idx (self : t) (i : Z) : t :=
  Build (_buffer self) (_buffer_num self) (_buffer_size self) i
    (_matched_buffer_idx self) (_target self) (_buffer_print_flag self).

Definition set_matched_buffer_idx (self : t) (i : Z) : t :=
  Build (_buffer self) (_buffer_num self) (_buffer_size self)
    (_next_buffer_idx self) i (_target self) (_buffer_print_flag self).

Definition set_buffer_print_flags (self : t) (flags : list Z) : t :=
  Build (_buffer self) (_buffer_num self) (_buffer_size self)
    (_next_buffer_idx self) (_matched_buffer_idx self) (_target self) flags.

Definition set_buffer_print_flag (self : t) (i : Z) (flag : Z) : t :=
  set_buffer_print_flags self (<[Z.to_nat i := flag]> (_buffer_print_flag self)).

(** The same buffer built over another target; the code has no such
    operation, it serves to compare two runs. *)
Definition set_target (self : t) (target : Target.t) : t :=
  Build (_buffer self) (_buffer_num self) (_buffer_size self)
    (_next_buffer_idx self) (_matched_buffer_idx self) target
    (_buffer_print_flag self).

(** [_buffer[i]] and [_buffer_print_flag[i]] *)
Definition buffer_at (self : t) (i : Z) : bytes := _buffer self !!! Z.to_nat i.
Definition flag_at (self : t) (i : Z) : Z := _buffer_print_flag self !!! Z.to_nat i.

(** [RingBuffer::RingBuffer(int buffer_num, int buffer_size, const Target
    *target)].  The two [assert]s fail on a non-positive argument: [None].
    [new char[_buffer_size]] leaves the content of a slot indeterminate:
    [garbage i k] is the byte found at offset [k] of slot [i]. *)
Definition new (garbage : Z → Z → char) (buffer_num buffer_size : Z)
    (target : Target.t) : option t :=
  if decide (buffer_num > 0 ∧ buffer_size > 0) then
    Some (Build ((λ i, garbage i <$> seqZ 0 buffer_size) <$> seqZ 0 buffer_num)
                buffer_num buffer_size 0 (-1) target
                ((λ _, 1) <$> seqZ 0 buffer_num))
  else None.

(** The body of both loops of [collectTo] at index [i], on the flags and
    on the calls made so far. *)
Definition collect_step (self : t) (acc : list Z * list call) (i : Z)
    : list Z * list call :=
  if decide (acc.1 !!! Z.to_nat i = 0) then
    (<[Z.to_nat i := 1]> acc.1,
     acc.2 ++ [Collect i (take (Z.to_nat (_buffer_size self)) (buffer_at self i))])
  else acc.

(** [void RingBuffer::collectTo(int start, Collector *collector) const]:
    the loop over [start .. _buffer_num - 1], then the loop over
    [0 .. start - 1]. *)
Definition collectTo (self : t) (start : Z) : t * list call :=
  let upper := foldl (collect_step self) (_buffer_print_flag self, [])
                 (seqZ start (_buffer_num self - start)) in
  let lower := foldl (collect_step self) upper (seqZ 0 start) in
  (set_buffer_print_flags self lower.1, lower.2).

(** What [read] leaves in a buffer: the stored bytes replace its front and
    its extent is unchanged. *)
Definition store (stored old : bytes) : bytes :=
  take (length old) (stored ++ drop (length stored) old).

Definition GiB : Z := 1024 * 1024 * 1024.

(** [int start = _matched_buffer_idx + _buffer_num / 2; start %= _buffer_num;] *)
Definition flush_start (self : t) : Z :=
  Z.rem (_matched_buffer_idx self + Z.quot (_buffer_num self) 2) (_buffer_num self).

(** Lines 221-226 of [readFrom]: take the next slot, advance the cursor,
    read into the slot, and mark it not printed. *)
Definition fill `{Reader R} (self : t) (reader : R) : t * read_result * R :=
  let buffer_idx := _next_buffer_idx self in
  let self := set_next_buffer_idx self (Z.rem (buffer_idx + 1) (_buffer_num self)) in
  let '(result, reader) := read reader (_buffer_size self) in
  let self := set_buffer self buffer_idx (store (stored result) (buffer_at self buffer_idx)) in
  let self := set_buffer_print_flag self buffer_idx 0 in
  (self, result, reader).

(** Lines 228-232: the progress line. *)
Definition progress (total_read : Z) : list line :=
  if decide (total_read `mod` GiB = 0) then [Scanned (total_read `div` GiB)] else [].

(** Lines 246-250: a match is looked for in the slot just filled only
    when none is being tracked. *)
Definition detect (self : t) (buffer_idx : Z) (nread total_read : Z) : t * list line :=
  if bool_decide (_matched_buffer_idx self < 0)
     && Target.match_ (_target self) (buffer_at self buffer_idx) nread
  then (set_matched_buffer_idx self buffer_idx, [Matched total_read])
  else (self, []).

(** Lines 238-241 and 254-259: the flush and the return to no match. *)
Definition flush (self : t) : t * list call :=
  let '(self, calls) := collectTo self (flush_start self) in
  (set_matched_buffer_idx self (-1), calls).

(** [bool RingBuffer::readFrom(Reader *reader, Collector *collector)] *)
Definition readFrom `{Reader R} (self : t) (reader : R) : bool * t * R * output :=
  let buffer_idx := _next_buffer_idx self in
  let '(self, result, reader) := fill self reader in
  let total_read := tell reader in
  let scanned := progress total_read in
  if decide (nread result ≤ 0) then
    if decide (_matched_buffer_idx self >= 0) then
      let '(self, calls) := flush self in
      (false, self, reader, Output calls scanned)
    else (false, self, reader, Output [] scanned)
  else
    let '(self, matched) := detect self buffer_idx (nread result) (tell reader) in
    if decide (_matched_buffer_idx self >= 0) then
      if decide (_next_buffer_idx self = flush_start self) then
        let '(self, calls) := flush self in
        (true, self, reader, Output calls (scanned ++ matched))
      else (true, self, reader, Output [] (scanned ++ matched))
    else (true, self, reader, Output [] (scanned ++ matched)).

(** [while (buffer.readFrom(&reader, &collector)) { }], as in [run] and
    [test]: the outputs of the cycles in order, or [None] when [fuel]
    cycles did not reach the end of the source. *)
Fixpoint scan `{Reader R} (fuel : nat) (self : t) (reader : R)
    : option (t * R * list output) :=
  match fuel with
  | O => None
  | S fuel' =>
      let '(continue, self, reader, out) := readFrom self reader in
      if continue then
        '(self, reader, outs) ← scan fuel' self reader;
        Some (self, reader, out :: outs)
      else Some (self, reader, [out])
  end.

(** [k] calls of [readFrom] one after the other, whatever they return. *)
Fixpoint cycles `{Reader R} (k : nat) (self : t) (reader : R) : t * R * list output :=
  match k with
  | O => (self, reader, [])
  | S k' =>
      let '(_, self, reader, out) := readFrom self reader in
      let '(self, reader, outs) := cycles k' self reader in
      (self, reader, out :: outs)
  end.

End RingBuffer.

(** Everything the sink received during a run, and the flushes of a run:
    the cycles that made at least one call. *)
Definition all_collected (outs : list output) : list call :=
  concat (collected <$> outs).

Definition flushes (outs : list output) : list (list call) :=
  filter (λ calls, calls ≠ []) (collected <$> outs).

(** * The vocabulary of the properties *)

(** [needle] occurs in [haystack] as a contiguous run of bytes. *)
Definition occurs (needle haystack : bytes) : Prop :=
  ∃ before after, haystack = before ++ needle ++ after.

Section Vocabulary.
Import RingBuffer.

(** [_buffer_num] slots of [_buffer_size] bytes and [_buffer_num] flags. *)
Definition shape (self : t) : Prop :=
  length (_buffer self) = Z.to_nat (_buffer_num self) ∧
  Forall (λ buffer, length buffer = Z.to_nat (_buffer_size self)) (_buffer self) ∧
  length (_buffer_print_flag self) = Z.to_nat (_buffer_num self).

(** The states the constructor and [readFrom] produce. *)
Definition wf (self : t) : Prop :=
  0 < _buffer_num self ∧
  0 < _buffer_size self ∧
  shape self ∧
  Forall (λ flag, flag = 0 ∨ flag = 1) (_buffer_print_flag self) ∧
  0 ≤ _next_buffer_idx self < _buffer_num self ∧
  (_matched_buffer_idx self = -1 ∨
   0 ≤ _matched_buffer_idx self < _buffer_num self).

#[global] Instance shape_dec self : Decision (shape self).
Proof. unfold shape. apply _. Defined.

#[global] Instance wf_dec self : Decision (wf self).
Proof. unfold wf. apply _. Defined.

(** A slot is pending when its flag says "not printed". *)
Definition pending (self : t) (i : Z) : Prop := flag_at self i = 0.

#[global] Instance pending_dec self i : Decision (pending self i).
Proof. unfold pending. apply _. Defined.

(** The order in which a flush from [start] visits the slots:
    [start, start+1, ..., N-1, 0, ..., start-1]. *)
Definition window_order (num start : Z) : list Z :=
  seqZ start (num - start) ++ seqZ 0 start.

(** The call a flush makes for slot [i]. *)
Definition emit (self : t) (i : Z) : call :=
  Collect i (take (Z.to_nat (_buffer_size self)) (buffer_at self i)).

(** [self'] has the slot count and slot size of [self], and its shape. *)
Definition same_shape (self self' : t) : Prop :=
  _buffer_num self' = _buffer_num self ∧
  _buffer_size self' = _buffer_size self ∧
  shape self'.

(** Cycle number [r] of a run that starts in [self] selects this slot. *)
Definition selected_by (self : t) (r : nat) : Z :=
  (_next_buffer_idx self + Z.of_nat r) `mod` _buffer_num self.

(** The pending slots in the order of the ring from the cursor on, oldest
    first, with their content. *)
Definition backlog (self : t) : list bytes :=
  buffer_at self <$>
    filter (pending self) (window_order (_buffer_num self) (_next_buffer_idx self)).

(** While a match is tracked: the cursor stands [d] slots past the matched
    slot with [1 <= d < N/2], the matched slot is pending, and a pattern was
    found in it. *)
Definition anchored (self : t) : Prop :=
  0 ≤ _matched_buffer_idx self →
  (∃ d, 1 ≤ d < _buffer_num self `quot` 2 ∧
        _next_buffer_idx self = (_matched_buffer_idx self + d) `mod` _buffer_num self) ∧
  pending self (_matched_buffer_idx self) ∧
  ∃ len, Target.match_ (_target self) (buffer_at self (_matched_buffer_idx self)) len = true.

(** For each of [k] read cycles in a row: what the read returned, and the
    content of the selected slot right after the read. *)
Fixpoint fills `{Reader R} (k : nat) (self : t) (reader : R) : list (read_result * bytes) :=
  match k with
  | O => []
  | S k' =>
      let '(filled, result, _) := fill self reader in
      let '(_, self', reader', _) := readFrom self reader in
      (result, buffer_at filled (_next_buffer_idx self)) :: fills k' self' reader'
  end.

(** [k] calls of [read] in a row with the same size: the results and the
    reader they leave. *)
Fixpoint reads `{Reader R} (k : nat) (reader : R) (size : Z) : list read_result * R :=
  match k with
  | O => ([], reader)
  | S k' =>
      let '(result, reader) := read reader size in
      let '(results, reader) := reads k' reader size in
      (result :: results, reader)
  end.

(** The number of read cycles the loop makes over a stream of [len] bytes
    read [size] bytes at a time: one per full chunk, one for a last short
    chunk if there is one, and the one that meets the end. *)
Definition stream_cycles (size : Z) (len : nat) : nat :=
  Z.to_nat (Z.of_nat len `div` size) +
  (if decide (Z.of_nat len `mod` size = 0) then 1 else 2).

(** A stream no read has failed on. *)
Definition good (reader : StreamReader.t) : Prop :=
  StreamReader.eofbit reader = false ∧ StreamReader.failbit reader = false.

(** The sum of the values the reads returned. *)
Definition returned (results : list read_result) : Z :=
  foldr (λ result total, nread result + total) 0 results.

End Vocabulary.

(** ** The objects of [test()] and some states of its runs *)

Section Examples.
Import RingBuffer.
Local Open Scope string_scope.

(** [target.addTarget("ab")] *)
Definition target_ab : Target.t := Target.addTarget Target.new (str "ab").

Definition target_a : Target.t := Target.addTarget Target.new (str "a").

(** [RingBuffer buffer(buffer_num, buffer_size, &target)] and the loop
    [while (buffer.readFrom(&reader, &collector)) { }] over an
    [std::istringstream] holding [input]: the outputs of the cycles. *)
Definition run (garbage : Z → Z → char) (buffer_num buffer_size : Z)
    (target : Target.t) (fuel : nat) (input : string) : option (list output) :=
  self ← new garbage buffer_num buffer_size target;
  '(_, _, outs) ← scan fuel self (StreamReader.new (str input));
  Some outs.

(** Slots whose bytes are all ['*'], for the indeterminate content. *)
Definition stars : Z → Z → char := λ _ _, "*"%byte.

(** The state of the first run after its fourth cycle: "aaab" is in slot
    3 and tracked, every slot is pending, the cursor is back at slot 0. *)
Definition ring_tracking : t :=
  Build [str "0000"; str "1111"; str "2222"; str "aaab"] 4 4 0 3 target_ab [0; 0; 0; 0].

(** A buffer as the constructor leaves it. *)
Definition ring_fresh : t :=
  Build (replicate 4 (str "****")) 4 4 0 (-1) target_ab [1; 1; 1; 1].

(** A fresh buffer whose target also holds the empty pattern. *)
Definition ring_empty_pattern : t :=
  set_target ring_fresh (Target.addTarget target_ab []).

Definition more_input : StreamReader.t := StreamReader.new (str "3333bbbb").
Definition no_input : StreamReader.t := StreamReader.new [].

End Examples.

(** ** test(), run() and main() *)

Module Main.
Import RingBuffer.
Local Open Scope string_scope.

(** What a call of [main] printed. *)
Inductive report : Type :=
  | Usage (argv0 : option bytes)  (* printf("Usage: %s /dev/sda mark\n", argv[0]) *)
  | OpenFailed                    (* perror("open file failed") *)
  | Ran (outs : list output).     (* the loop: stdout gets the calls, stderr the lines *)

(** One block of [test()]: a fresh [RingBuffer buffer(4, 4, &target)], the
    loop over the [std::istringstream], and [os.str()]. *)
Definition block (garbage : Z → Z → char) (fuel : nat) (input : string) : option bytes :=
  written ∘ all_collected <$> run garbage 4 4 target_ab fuel input.

(** [int test()]: the value returned, the number of "." written by the
    [TEST_ASSERT]s that held, and what the fifth block printed on the
    standard output.  [None]: a loop did not end within [fuel] cycles. *)
Definition test (garbage : Z → Z → char) (fuel : nat) : option (Z * nat * list bytes) :=
  os ← block garbage fuel "000011112222aaab3333bbbb4444cccc5555aaab666677778888";
  if negb (bool_decide (os = str "11112222aaab3333cccc5555aaab6666"))
  then Some (-1, 0%nat, []) else
  os ← block garbage fuel "000011112222aaab3333bbbbaaab666677778888";
  if negb (bool_decide (os = str "11112222aaab3333bbbbaaab6666"))
  then Some (-1, 1%nat, []) else
  os ← block garbage fuel "000011112222aaab3333bbbb4444cccc";
  if negb (bool_decide (os = str "11112222aaab3333"))
  then Some (-1, 2%nat, []) else
  os ← block garbage fuel "aaab0000111122223333bbbb4444cccc";
  if negb (bool_decide (os = str "aaab0000"))
  then Some (-1, 3%nat, []) else
  os ← block garbage fuel "0000111122223333bbbb4444ccccaaab";
  if negb (bool_decide (os = str "aaab0000"))
  then Some (-1, 4%nat, [os])
  else Some (0, 5%nat, [os]).

(** [int run(const char *dev, int argc, const char *argv[])].  [fs dev] is
    the content the [std::ifstream] delivers, [None] when the file does not
    open.  [None] as result: the loop did not end within [fuel] cycles. *)
Definition run (garbage : Z → Z → char) (fs : bytes → option bytes) (fuel : nat)
    (dev : bytes) (argv : list bytes) : option (Z * report) :=
  match fs dev with
  | None => Some (-1, OpenFailed)
  | Some content =>
      let target := foldl Target.addTarget Target.new argv in
      buffer ← RingBuffer.new garbage 16 4096 target;
      '(_, _, outs) ← scan fuel buffer (StreamReader.new content);
      Some (0, Ran outs)
  end.

(** [int main(int argc, const char *argv[])] *)
Definition main (garbage : Z → Z → char) (fs : bytes → option bytes) (fuel : nat)
    (argv : list bytes) : option (Z * report) :=
  if decide (Z.of_nat (length argv) < 3) then Some (1, Usage (argv !! 0%nat))
  else run garbage fs fuel (argv !!! 1%nat) (drop 2 argv).

End Main.

(** * Properties *)

(** ** Occurrence of a pattern *)

Lemma starts_with_true needle haystack :
  starts_with needle haystack = true ↔ ∃ after, haystack = needle ++ after.
Proof.
  revert haystack. induction needle as [|a needle IH]; intros [|b haystack]; simpl.
  - split; [exists []; done | done].
  - split; [eexists; done | done].
  - split; [done | intros [after Heq]; done].
  - destruct (decide (a = b)) as [->|Hne].
    + rewrite IH. split; intros [after Heq]; exists after; congruence.
    + split; [done | intros [after Heq]; congruence].
Qed.

Lemma occurs_nil haystack : occurs [] haystack.
Proof. exists [], haystack. done. Qed.

Lemma occurs_cons needle b haystack :
  occurs needle (b :: haystack) ↔
  starts_with needle (b :: haystack) = true ∨ occurs needle haystack.
Proof.
  rewrite starts_with_true. split.
  - intros ([|c before] & after & Heq); simpl in Heq.
    + left. exists after. done.
    + right. exists before, after. congruence.
  - intros [[after Heq] | (before & after & Heq)].
    + exists [], after. done.
    + exists (b :: before), after. simpl. congruence.
Qed.

Lemma memmem_is_Some haystack needle :
  is_Some (memmem haystack needle) ↔ occurs needle haystack.
Proof.
  induction haystack as [|b haystack IH]; simpl.
  - destruct (starts_with needle []) eqn:Hs.
    + split; [|eauto]. intros _. apply starts_with_true in Hs as [after Heq].
      exists [], after. done.
    + split; [intros [? ?]; done|].
      intros (before & after & Heq). symmetry in Heq.
      apply app_eq_nil in Heq as [-> Heq]. apply app_eq_nil in Heq as [-> ->].
      simpl in Hs. done.
  - rewrite occurs_cons. destruct (starts_with needle (b :: haystack)) eqn:Hs.
    + split; eauto.
    + rewrite fmap_is_Some, IH. split; [eauto | intros [?|?]; done].
Qed.

(** The offset [memmem] returns is that of an occurrence, and no occurrence
    starts before it. *)
Lemma memmem_first haystack needle k :
  memmem haystack needle = Some k →
  starts_with needle (drop k haystack) = true ∧
  ∀ j, (j < k)%nat → starts_with needle (drop j haystack) = false.
Proof.
  revert k. induction haystack as [|b haystack IH]; intros k; simpl.
  - destruct (starts_with needle []) eqn:Hs; [|done].
    intros [= <-]. split; [done | lia].
  - destruct (starts_with needle (b :: haystack)) eqn:Hs.
    + intros [= <-]. split; [done | lia].
    + destruct (memmem haystack needle) as [k'|] eqn:Hm; [|done].
      intros [= <-]. destruct (IH k' eq_refl) as [Hat Hbefore].
      split; [done|]. intros [|j] Hj; [done|]. apply Hbefore. lia.
Qed.

(** ** Target::match *)

Lemma match_loop_miss probe targets :
  Forall (λ target, ¬ occurs target probe) targets →
  Target.match_loop probe targets = (false, length targets).
Proof.
  induction 1 as [|target targets Hmiss _ IH]; simpl; [done|].
  destruct (memmem probe target) eqn:Hm.
  - exfalso. apply Hmiss, memmem_is_Some. eauto.
  - by rewrite IH.
Qed.

Lemma match_loop_hit probe before hit after :
  Forall (λ target, ¬ occurs target probe) before →
  occurs hit probe →
  Target.match_loop probe (before ++ hit :: after) = (true, S (length before)).
Proof.
  intros Hmiss Hhit. induction Hmiss as [|target before Hmiss _ IH]; simpl.
  - apply memmem_is_Some in Hhit as [k ->]. done.
  - destruct (memmem probe target) eqn:Hm.
    + exfalso. apply Hmiss, memmem_is_Some. eauto.
    + by rewrite IH.
Qed.

Lemma match_loop_true probe targets :
  (Target.match_loop probe targets).1 = true ↔
  ∃ target, target ∈ targets ∧ occurs target probe.
Proof.
  induction targets as [|target targets IH]; simpl.
  - split; [done | intros (? & Hin & _); by apply elem_of_nil in Hin].
  - destruct (memmem probe target) eqn:Hm; simpl.
    + split; [|done]. intros _. exists target. split; [left|].
      apply memmem_is_Some. eauto.
    + destruct (Target.match_loop probe targets) as [matched calls]; simpl in *.
      rewrite IH. split.
      * intros (p & Hin & Hocc). exists p. split; [by right | done].
      * intros (p & Hin & Hocc). apply elem_of_cons in Hin as [->|Hin].
        -- apply memmem_is_Some in Hocc as [? ?]. congruence.
        -- eauto.
Qed.

(** C8.  [Target::match] returns true exactly when one of the registered
    patterns occurs as a contiguous run of bytes in the first [len] bytes of
    the buffer.  It probes the patterns in the order of their registration
    and stops at the first that occurs: when the patterns before [hit] do not
    occur and [hit] does, it makes one [memmem] call per pattern up to and
    including [hit], and none for those after; when none occurs it probes
    them all.  It is a function of the target and the probed bytes, with
    nothing else read or changed, and with no pattern registered its result
    is false for every buffer. *)
Theorem match_iff_some_pattern_occurs (self : Target.t) (buffer : bytes) (len : Z) :
  let probe := take (Z.to_nat len) buffer in
  (Target.match_ self buffer len = true ↔
     ∃ target, target ∈ Target._targets self ∧ occurs target probe) ∧
  (∀ before hit after,
     Target._targets self = before ++ hit :: after →
     Forall (λ target, ¬ occurs target probe) before →
     occurs hit probe →
     Target.match_ self buffer len = true ∧
     Target.match_calls self buffer len = S (length before)) ∧
  (Forall (λ target, ¬ occurs target probe) (Target._targets self) →
     Target.match_ self buffer len = false ∧
     Target.match_calls self buffer len = length (Target._targets self)) ∧
  Target.match_ Target.new buffer len = false.
Proof.
  intros probe. unfold Target.match_, Target.match_calls. fold probe.
  split; [apply match_loop_true|]. split; [|split; [|done]].
  - intros before hit after -> Hmiss Hhit.
    by rewrite (match_loop_hit _ _ _ _ Hmiss Hhit).
  - intros Hmiss. by rewrite (match_loop_miss _ _ Hmiss).
Qed.

(** ** The ring: shape, well-formedness and the order of a flush *)

Section RingBufferProperties.
Import RingBuffer.

Lemma window_order_elem num start i :
  0 ≤ start < num → i ∈ window_order num start ↔ 0 ≤ i < num.
Proof.
  intros Hs. unfold window_order. rewrite elem_of_app, !elem_of_seqZ. lia.
Qed.

Lemma window_order_NoDup num start : 0 ≤ start < num → NoDup (window_order num start).
Proof.
  intros Hs. unfold window_order. apply NoDup_app. split; [apply NoDup_seqZ|].
  split; [|apply NoDup_seqZ]. intros i. rewrite !elem_of_seqZ. lia.
Qed.

Lemma window_order_length num start :
  0 ≤ start < num → length (window_order num start) = Z.to_nat num.
Proof. intros Hs. unfold window_order. rewrite length_app, !length_seqZ. lia. Qed.

(** The slot at position [k] of the order is [(start + k) mod num]. *)
Lemma window_order_lookup num start k :
  0 ≤ start < num → 0 ≤ k < num →
  window_order num start !! Z.to_nat k = Some ((start + k) `mod` num).
Proof.
  intros Hs Hk. unfold window_order.
  destruct (decide (k < num - start)) as [Hlt|Hge].
  - rewrite lookup_app_l by (rewrite length_seqZ; lia).
    rewrite lookup_seqZ_lt by lia. f_equal.
    rewrite Z.mod_small by lia. lia.
  - rewrite lookup_app_r by (rewrite length_seqZ; lia).
    rewrite length_seqZ, lookup_seqZ_lt by lia. f_equal.
    replace (start + k) with ((start + k - num) + 1 * num) by lia.
    rewrite Z.mod_add by lia. rewrite Z.mod_small by lia. lia.
Qed.

(** *** The loops of [collectTo] *)

Lemma collect_fold_flags_length self l acc :
  length (foldl (collect_step self) acc l).1 = length acc.1.
Proof.
  revert acc. induction l as [|i l IH]; intros acc; simpl; [done|].
  rewrite IH. unfold collect_step. case_decide; simpl; [|done].
  apply length_insert.
Qed.

Lemma collect_fold_flags_Forall (P : Z → Prop) self l acc :
  P 1 → Forall P acc.1 → Forall P (foldl (collect_step self) acc l).1.
Proof.
  intros H1. revert acc. induction l as [|i l IH]; intros acc Hacc; simpl; [done|].
  apply IH. unfold collect_step. case_decide; simpl; [|done].
  apply Forall_insert; done.
Qed.

(** The flag of a slot after the loop over [l]: 1 when the loop met it
    with flag 0, unchanged otherwise. *)
Lemma collect_fold_flags_lookup self l acc (j : nat) :
  (foldl (collect_step self) acc l).1 !!! j =
  if decide (j ∈ Z.to_nat <$> l ∧ (j < length acc.1)%nat ∧ acc.1 !!! j = 0)
  then 1 else acc.1 !!! j.
Proof.
  revert acc. induction l as [|i l IH]; intros acc; cbn [foldl].
  - case_decide as Hc; [|done]. destruct Hc as [Hin _].
    rewrite fmap_nil in Hin. by apply elem_of_nil in Hin.
  - rewrite IH, fmap_cons. unfold collect_step.
    destruct (decide (acc.1 !!! Z.to_nat i = 0)) as [Hi|Hi]; cbn [fst snd].
    + rewrite length_insert.
      destruct (decide (j = Z.to_nat i)) as [->|Hne].
      * destruct (decide (Z.to_nat i < length acc.1)%nat) as [Hlt|Hge].
        -- rewrite list_lookup_total_insert_eq by done.
           rewrite (decide_True (P := _ ∈ _ :: _ ∧ _)) by (split; [left | done]).
           by destruct (decide _).
        -- rewrite list_insert_ge by lia.
           rewrite !decide_False by (intros (_ & ? & _); done). done.
      * rewrite list_lookup_total_insert_ne by done.
        apply decide_ext. rewrite elem_of_cons. split.
        -- intros (Hin & ? & ?). auto.
        -- intros ([Heq|Hin] & ? & ?); [done | auto].
    + apply decide_ext. rewrite elem_of_cons. split.
      * intros (Hin & ? & ?). auto.
      * intros ([Heq|Hin] & ? & Hzero); [|auto]. subst j. done.
Qed.

Lemma filter_agree {A} (P Q : A → Prop) `{!∀ x, Decision (P x)} `{!∀ x, Decision (Q x)}
    (l : list A) :
  (∀ x, x ∈ l → P x ↔ Q x) → filter P l = filter Q l.
Proof.
  induction l as [|x l IH]; intros Hagree; [done|].
  rewrite !filter_cons.
  rewrite IH by (intros y Hy; apply Hagree; by right).
  destruct (decide (P x)) as [HP|HP], (decide (Q x)) as [HQ|HQ]; try done.
  - exfalso. apply HQ, Hagree; [left | done].
  - exfalso. apply HP, Hagree; [left | done].
Qed.

(** The calls made by the loop over [l]: one [emit] for every slot of [l]
    whose flag was 0 when the loop began, in the order of [l]. *)
Lemma collect_fold_calls self l acc :
  NoDup l → Forall (λ i, 0 ≤ i) l →
  (foldl (collect_step self) acc l).2 =
  acc.2 ++ (emit self <$> filter (λ i, acc.1 !!! Z.to_nat i = 0) l).
Proof.
  intros Hnodup Hpos. revert acc.
  induction l as [|i l IH]; intros acc; cbn [foldl].
  - by rewrite filter_nil, fmap_nil, app_nil_r.
  - apply NoDup_cons in Hnodup as [Hnotin Hnodup].
    apply Forall_cons in Hpos as [Hi Hpos].
    rewrite IH by done. unfold collect_step. rewrite filter_cons.
    destruct (decide (acc.1 !!! Z.to_nat i = 0)) as [Hflag|Hflag]; cbn [fst snd].
    + rewrite fmap_cons, <- app_assoc. simpl. do 3 f_equal.
      apply filter_agree. intros k Hk.
      rewrite list_lookup_total_insert_ne; [done|].
      rewrite Forall_forall in Hpos. specialize (Hpos k Hk).
      intros Heq. apply Z2Nat.inj in Heq; [|lia..]. by subst k.
    + done.
Qed.

(** [collectTo] calls the sink once for every pending slot, in the order
    of the window, and touches nothing but the flags. *)
Lemma collectTo_calls self start :
  0 ≤ start < _buffer_num self →
  (collectTo self start).2 =
  emit self <$> filter (pending self) (window_order (_buffer_num self) start).
Proof.
  intros Hs. unfold collectTo. cbn [snd]. rewrite <- foldl_app.
  rewrite collect_fold_calls.
  - done.
  - by apply window_order_NoDup.
  - apply Forall_forall. intros i Hi. apply window_order_elem in Hi; lia.
Qed.

Lemma collectTo_frame self start :
  let self' := (collectTo self start).1 in
  _buffer self' = _buffer self ∧
  _buffer_num self' = _buffer_num self ∧
  _buffer_size self' = _buffer_size self ∧
  _next_buffer_idx self' = _next_buffer_idx self ∧
  _matched_buffer_idx self' = _matched_buffer_idx self ∧
  _target self' = _target self.
Proof. done. Qed.

Lemma collectTo_flags_length self start :
  length (_buffer_print_flag (collectTo self start).1) =
  length (_buffer_print_flag self).
Proof.
  unfold collectTo. cbn [fst _buffer_print_flag set_buffer_print_flags].
  by rewrite !collect_fold_flags_length.
Qed.

Lemma collectTo_flags_Forall (P : Z → Prop) self start :
  P 1 → Forall P (_buffer_print_flag self) →
  Forall P (_buffer_print_flag (collectTo self start).1).
Proof.
  intros H1 HP. unfold collectTo. cbn [fst _buffer_print_flag set_buffer_print_flags].
  apply collect_fold_flags_Forall; [done|].
  apply collect_fold_flags_Forall; done.
Qed.

(** After [collectTo] no slot is pending. *)
Lemma collectTo_flag_at self start i :
  0 ≤ start < _buffer_num self →
  length (_buffer_print_flag self) = Z.to_nat (_buffer_num self) →
  0 ≤ i < _buffer_num self →
  flag_at (collectTo self start).1 i =
  if decide (flag_at self i = 0) then 1 else flag_at self i.
Proof.
  intros Hs Hlen Hi. unfold flag_at, collectTo.
  cbn [fst _buffer_print_flag set_buffer_print_flags].
  rewrite <- foldl_app. fold (window_order (_buffer_num self) start).
  rewrite collect_fold_flags_lookup. cbn [fst].
  apply decide_ext. split; [intros (_ & _ & ?); done|].
  intros Hflag. split; [|split; [lia | done]].
  apply list_elem_of_fmap. exists i. split; [done|].
  by apply window_order_elem.
Qed.

(** *** The steps of [readFrom] *)

Context `{Reader R}.

Lemma store_length stored old : length (store stored old) = length old.
Proof.
  unfold store. rewrite length_take, length_app, length_drop. lia.
Qed.

(** A read that fills the buffer leaves exactly the bytes read. *)
Lemma store_full stored old : length stored = length old → store stored old = stored.
Proof.
  intros Hlen. unfold store. rewrite drop_ge by lia.
  rewrite app_nil_r, <- Hlen. apply firstn_all.
Qed.

Lemma flush_start_range self :
  0 < _buffer_num self →
  0 ≤ _matched_buffer_idx self →
  flush_start self =
    (_matched_buffer_idx self + _buffer_num self `div` 2) `mod` _buffer_num self ∧
  0 ≤ flush_start self < _buffer_num self.
Proof.
  intros HN Hm. unfold flush_start.
  rewrite Z.quot_div_nonneg by lia.
  assert (0 ≤ _buffer_num self `div` 2) by (apply Z.div_pos; lia).
  rewrite Z.rem_mod_nonneg by lia.
  split; [done|]. apply Z.mod_pos_bound. lia.
Qed.

(** The sums the code forms in [int] stay below [INT_MAX] for every slot
    count up to two thirds of it; [run] uses 16 slots. *)
Lemma int_arithmetic_in_range self :
  wf self →
  _buffer_num self + _buffer_num self `quot` 2 ≤ INT_MAX →
  0 ≤ _next_buffer_idx self + 1 ≤ INT_MAX ∧
  (0 ≤ _matched_buffer_idx self →
   0 ≤ _matched_buffer_idx self + _buffer_num self `quot` 2 ≤ INT_MAX).
Proof.
  intros (HN & _ & _ & _ & Hnext & Hmatched) Hmax.
  assert (0 ≤ _buffer_num self `quot` 2) by (apply Z.quot_pos; lia).
  split; [lia|]. intros Hm. lia.
Qed.

Lemma fill_eq self reader :
  let idx := _next_buffer_idx self in
  let result := (read reader (_buffer_size self)).1 in
  fill self reader =
  (Build (<[Z.to_nat idx := store (stored result) (buffer_at self idx)]> (_buffer self))
         (_buffer_num self) (_buffer_size self)
         (Z.rem (idx + 1) (_buffer_num self))
         (_matched_buffer_idx self) (_target self)
         (<[Z.to_nat idx := 0]> (_buffer_print_flag self)),
   result, (read reader (_buffer_size self)).2).
Proof.
  intros idx result. unfold fill, result.
  cbn [set_next_buffer_idx _buffer_size _buffer_num].
  destruct (read reader (_buffer_size self)) as [res reader']. done.
Qed.

Lemma fill_shape self reader : shape self → shape (fill self reader).1.1.
Proof.
  intros (Hbuf & Hslots & Hflags). rewrite fill_eq. unfold shape. simpl.
  rewrite !length_insert. split; [done|]. split; [|done].
  unfold buffer_at.
  destruct (decide (Z.to_nat (_next_buffer_idx self) < length (_buffer self))%nat)
    as [Hlt|Hge].
  - apply Forall_insert; [done|]. rewrite store_length.
    rewrite Forall_lookup in Hslots.
    destruct (lookup_lt_is_Some_2 _ _ Hlt) as [old Hold].
    rewrite (list_lookup_total_correct _ _ _ Hold). eauto.
  - rewrite list_insert_ge by lia. done.
Qed.

Lemma fill_wf self reader :
  wf self →
  let filled := (fill self reader).1.1 in
  wf filled ∧
  _next_buffer_idx filled = (_next_buffer_idx self + 1) `mod` _buffer_num self ∧
  pending filled (_next_buffer_idx self).
Proof.
  intros (HN & HS & Hshape & Hflags & Hnext & Hmatched). intros filled.
  pose proof (fill_shape self reader Hshape) as Hshape'.
  unfold filled in *. rewrite fill_eq in *. cbn [fst] in *.
  assert (Z.rem (_next_buffer_idx self + 1) (_buffer_num self) =
          (_next_buffer_idx self + 1) `mod` _buffer_num self) as Hrem
    by (apply Z.rem_mod_nonneg; lia).
  split; [|split].
  - unfold wf. simpl. rewrite Hrem.
    split; [done|]. split; [done|]. split; [done|].
    split; [apply Forall_insert; auto|].
    split; [apply Z.mod_pos_bound; lia | done].
  - simpl. done.
  - unfold pending, flag_at. simpl.
    apply list_lookup_total_insert_eq. destruct Hshape as (_ & _ & ->). lia.
Qed.

Lemma detect_matched self idx n total :
  let self' := (detect self idx n total).1 in
  self' = set_matched_buffer_idx self (_matched_buffer_idx self') ∧
  (_matched_buffer_idx self' = _matched_buffer_idx self ∨
   _matched_buffer_idx self < 0 ∧ _matched_buffer_idx self' = idx ∧
   Target.match_ (_target self) (buffer_at self idx) n = true ∧
   (detect self idx n total).2 = [Matched total]).
Proof.
  unfold detect.
  destruct (bool_decide (_matched_buffer_idx self < 0)) eqn:Hidle; simpl.
  - destruct (Target.match_ _ _ _) eqn:Hm; simpl.
    + split; [done|]. right. apply bool_decide_eq_true in Hidle. done.
    + split; [by destruct self | by left].
  - split; [by destruct self | by left].
Qed.

Lemma detect_wf self idx n total :
  wf self → 0 ≤ idx < _buffer_num self → wf (detect self idx n total).1.
Proof.
  intros Hwf Hidx. destruct (detect_matched self idx n total) as [Heq Hcases].
  rewrite Heq. destruct Hwf as (HN & HS & Hshape & Hflags & Hnext & Hmatched).
  unfold wf, shape. simpl.
  repeat (split; [done|]). destruct Hshape as (? & ? & ?).
  repeat (split; [done|]).
  destruct Hcases as [->|(_ & -> & _)]; [done | by right].
Qed.

Lemma flush_wf self :
  wf self → 0 ≤ _matched_buffer_idx self →
  wf (flush self).1 ∧ _matched_buffer_idx (flush self).1 = -1 ∧
  (∀ i, 0 ≤ i < _buffer_num self → ¬ pending (flush self).1 i).
Proof.
  intros (HN & HS & (Hbuf & Hslots & Hlen) & Hflags & Hnext & Hmatched) Hm.
  destruct (flush_start_range self HN Hm) as [_ Hstart].
  unfold flush.
  pose proof (collectTo_flags_length self (flush_start self)) as Hlen'.
  pose proof (collectTo_flags_Forall _ self (flush_start self) (or_intror eq_refl) Hflags)
    as Hflags'.
  pose proof (collectTo_flag_at self (flush_start self)) as Hat.
  destruct (collectTo self (flush_start self)) as [self' calls] eqn:Hc.
  assert (self' = (collectTo self (flush_start self)).1) as Hself' by (by rewrite Hc).
  cbn [fst] in *.
  destruct (collectTo_frame self (flush_start self)) as (E1 & E2 & E3 & E4 & E5 & E6).
  rewrite <- Hself' in *.
  split; [|split; [done|]].
  - unfold wf, shape. simpl. rewrite E1, E2, E3, E4, Hlen'.
    repeat (split; [done|]). by left.
  - intros i Hi. unfold pending, flag_at. simpl.
    fold (flag_at self' i). rewrite Hat by done.
    case_decide; [done|].
    rewrite Forall_lookup in Hflags.
    assert (Z.to_nat i < length (_buffer_print_flag self))%nat as Hlt by lia.
    destruct (lookup_lt_is_Some_2 _ _ Hlt) as [f Hf].
    unfold flag_at in *. rewrite (list_lookup_total_correct _ _ _ Hf) in *.
    destruct (Hflags _ _ Hf); lia.
Qed.

(** [readFrom] in terms of its steps. *)
Lemma readFrom_eq self reader :
  let idx := _next_buffer_idx self in
  let filled := (fill self reader).1.1 in
  let result := (fill self reader).1.2 in
  let reader' := (fill self reader).2 in
  let scanned := progress (tell reader') in
  let tracked := (detect filled idx (nread result) (tell reader')).1 in
  let matched := (detect filled idx (nread result) (tell reader')).2 in
  readFrom self reader =
  if decide (nread result ≤ 0) then
    if decide (0 ≤ _matched_buffer_idx filled)
    then (false, (flush filled).1, reader', Output (flush filled).2 scanned)
    else (false, filled, reader', Output [] scanned)
  else
    if decide (0 ≤ _matched_buffer_idx tracked ∧
               _next_buffer_idx tracked = flush_start tracked)
    then (true, (flush tracked).1, reader', Output (flush tracked).2 (scanned ++ matched))
    else (true, tracked, reader', Output [] (scanned ++ matched)).
Proof.
  intros idx filled result reader' scanned tracked matched.
  unfold readFrom. fold idx.
  subst filled result reader' tracked matched scanned.
  destruct (fill self reader) as [[filled result] reader']. cbn [fst snd].
  destruct (decide (nread result ≤ 0)) as [Heof|Hdata].
  - destruct (decide (_matched_buffer_idx filled >= 0)) as [Hm|Hm].
    + rewrite decide_True by lia. by destruct (flush filled).
    + rewrite decide_False by lia. done.
  - destruct (detect filled idx (nread result) (tell reader')) as [tracked matched].
    cbn [fst snd].
    destruct (decide (_matched_buffer_idx tracked >= 0)) as [Hm|Hm].
    + destruct (decide (_next_buffer_idx tracked = flush_start tracked)) as [Hs|Hs].
      * rewrite decide_True by (split; [lia | done]). by destruct (flush tracked).
      * rewrite decide_False by (intros [_ ?]; done). done.
    + rewrite decide_False by (intros [? _]; lia). done.
Qed.

Lemma readFrom_wf self reader :
  wf self → wf (readFrom self reader).1.1.2.
Proof.
  intros Hwf. rewrite readFrom_eq.
  destruct (fill_wf self reader Hwf) as (Hfilled & _ & _).
  assert (0 ≤ _next_buffer_idx self < _buffer_num (fill self reader).1.1) as Hidx.
  { rewrite fill_eq. simpl. destruct Hwf as (_ & _ & _ & _ & ? & _). done. }
  pose proof (detect_wf _ _ (nread (fill self reader).1.2)
                (tell (fill self reader).2) Hfilled Hidx) as Htracked.
  repeat case_decide; cbn [fst snd]; try done.
  - by apply flush_wf.
  - apply flush_wf; [done | tauto].
Qed.

Lemma cycles_wf k self reader : wf self → wf (cycles k self reader).1.1.
Proof.
  revert self reader. induction k as [|k IH]; intros self reader Hwf; [done|].
  cbn [cycles]. pose proof (readFrom_wf self reader Hwf) as Hwf'.
  destruct (readFrom self reader) as [[[continue self'] reader'] out].
  specialize (IH self' reader' Hwf').
  destruct (cycles k self' reader') as [[self'' reader''] outs]. done.
Qed.

(** The constructor establishes the invariant, with the cursor at slot 0,
    no match, and every flag at 1. *)
Lemma new_Some garbage buffer_num buffer_size target self :
  new garbage buffer_num buffer_size target = Some self →
  wf self ∧
  _buffer_num self = buffer_num ∧ _buffer_size self = buffer_size ∧
  _next_buffer_idx self = 0 ∧ _matched_buffer_idx self = -1 ∧
  _target self = target ∧
  _buffer_print_flag self = replicate (Z.to_nat buffer_num) 1.
Proof.
  unfold new. case_decide as Hpos; [|done]. intros [= <-]. simpl.
  assert ((λ _ : Z, 1) <$> seqZ 0 buffer_num = replicate (Z.to_nat buffer_num) 1) as ->.
  { rewrite (const_fmap _ _ 1) by done. by rewrite length_seqZ. }
  split; [|done]. unfold wf, shape. simpl.
  rewrite length_fmap, length_seqZ, length_replicate.
  split; [lia|]. split; [lia|]. split; [split; [done|split; [|done]]|].
  - apply Forall_fmap, Forall_forall. intros i _. simpl.
    by rewrite length_fmap, length_seqZ.
  - split; [|split; [lia | by left]].
    apply Forall_replicate. by right.
Qed.

(** *** The shape of the ring *)

Lemma collectTo_same_shape self start :
  shape self → same_shape self (collectTo self start).1 ∧
               _buffer (collectTo self start).1 = _buffer self.
Proof.
  intros (Hbuf & Hslots & Hflags).
  pose proof (collectTo_flags_length self start) as Hlen.
  destruct (collectTo_frame self start) as (E1 & E2 & E3 & _).
  unfold same_shape, shape. rewrite E1, E2, E3, Hlen. done.
Qed.

Lemma readFrom_same_shape self reader :
  shape self → same_shape self (readFrom self reader).1.1.2.
Proof.
  intros Hshape. rewrite readFrom_eq.
  pose proof (fill_shape self reader Hshape) as Hfilled.
  assert (_buffer_num (fill self reader).1.1 = _buffer_num self ∧
          _buffer_size (fill self reader).1.1 = _buffer_size self) as [EN ES]
    by (by rewrite fill_eq).
  set (filled := (fill self reader).1.1) in *.
  set (result := (fill self reader).1.2).
  set (reader' := (fill self reader).2).
  destruct (detect_matched filled (_next_buffer_idx self) (nread result) (tell reader'))
    as [Htracked _].
  set (tracked := (detect filled _ _ _).1) in *.
  assert (same_shape self tracked) as Hsame.
  { rewrite Htracked. split; [exact EN | split; [exact ES | exact Hfilled]]. }
  assert (∀ s, same_shape self s → same_shape self (flush s).1) as Hflush.
  { intros s (E1 & E2 & Hs). unfold flush.
    destruct (collectTo_same_shape s (flush_start s) Hs) as [(F1 & F2 & F3) _].
    destruct (collectTo s (flush_start s)) as [s' calls]. cbn [fst] in *.
    split; [simpl; congruence | split; [simpl; congruence | exact F3]]. }
  assert (same_shape self filled) as Hsame' by done.
  repeat case_decide; cbn [fst snd]; auto.
Qed.

Lemma cycles_same_shape k self reader :
  shape self → same_shape self (cycles k self reader).1.1.
Proof.
  revert self reader. induction k as [|k IH]; intros self reader Hshape; [done|].
  cbn [cycles]. destruct (readFrom_same_shape self reader Hshape) as (E1 & E2 & Hshape').
  destruct (readFrom self reader) as [[[continue self'] reader'] out]. cbn [fst snd] in *.
  destruct (IH self' reader' Hshape') as (F1 & F2 & Hshape'').
  destruct (cycles k self' reader') as [[self'' reader''] outs]. cbn [fst snd] in *.
  unfold same_shape. by rewrite F1, F2, E1, E2.
Qed.

(** C9.  The shape of the buffer is fixed: a read cycle, a flush from any
    start index, and any number of read cycles one after the other leave
    the slot count N and the slot size S as they were, and the state still
    has N slots of S bytes each and N flags, whatever the reader delivers.
    A flush leaves the slots themselves untouched. *)
Theorem shape_fixed_for_the_run (self : t) (reader : R) (start : Z) (k : nat) :
  shape self →
  same_shape self (readFrom self reader).1.1.2 ∧
  same_shape self (collectTo self start).1 ∧
  _buffer (collectTo self start).1 = _buffer self ∧
  same_shape self (cycles k self reader).1.1.
Proof.
  intros Hshape. split; [by apply readFrom_same_shape|].
  split; [by apply collectTo_same_shape|].
  split; [by apply collectTo_same_shape|].
  by apply cycles_same_shape.
Qed.

(** *** One read cycle *)

Lemma emit_slot self (l : list Z) : slot <$> (emit self <$> l) = l.
Proof. rewrite <- list_fmap_compose. apply list_fmap_id. Qed.

Lemma flush_calls self :
  0 < _buffer_num self → 0 ≤ _matched_buffer_idx self →
  (flush self).2 =
    emit self <$> filter (pending self) (window_order (_buffer_num self) (flush_start self)) ∧
  NoDup (slot <$> (flush self).2).
Proof.
  intros HN Hm. destruct (flush_start_range self HN Hm) as [_ Hstart].
  pose proof (collectTo_calls self (flush_start self) Hstart) as Hcalls.
  unfold flush. destruct (collectTo self (flush_start self)) as [self' calls].
  cbn [snd] in *. subst calls. split; [done|].
  rewrite emit_slot. apply NoDup_filter. by apply window_order_NoDup.
Qed.

Lemma fill_frame self reader :
  let filled := (fill self reader).1.1 in
  _buffer_num filled = _buffer_num self ∧
  _buffer_size filled = _buffer_size self ∧
  _matched_buffer_idx filled = _matched_buffer_idx self ∧
  _target filled = _target self ∧
  (fill self reader).1.2 = (read reader (_buffer_size self)).1.
Proof. by rewrite fill_eq. Qed.

(** C4.  A read cycle returns false exactly when the read returned
    [n <= 0], and true otherwise.  At [n <= 0], when a match is being
    tracked the cycle makes one flush: one pass over the window that starts
    at the flush start computed from the tracked slot, calling the sink for
    the slots that are pending, each at most once; after it no match is
    tracked and no slot is pending.  When no match is tracked nothing is
    sent.  In both cases the loop of the driver ends with this cycle. *)
Theorem readFrom_false_at_end_of_stream (self : t) (reader : R) :
  wf self →
  let n := nread (read reader (_buffer_size self)).1 in
  let filled := (fill self reader).1.1 in
  let '(continue, self', reader', out) := readFrom self reader in
  (continue = false ↔ n ≤ 0) ∧
  (continue = true ↔ 0 < n) ∧
  (n ≤ 0 →
   (0 ≤ _matched_buffer_idx self →
      collected out =
        emit filled <$> filter (pending filled)
          (window_order (_buffer_num self) (flush_start self)) ∧
      NoDup (slot <$> collected out) ∧
      _matched_buffer_idx self' = -1 ∧
      ∀ i, 0 ≤ i < _buffer_num self → ¬ pending self' i) ∧
   (_matched_buffer_idx self < 0 →
      collected out = [] ∧ self' = filled ∧ _matched_buffer_idx self' = -1) ∧
   ∀ fuel, scan (S fuel) self reader = Some (self', reader', [out])).
Proof.
  intros Hwf. cbv zeta.
  destruct (fill_wf self reader Hwf) as (Hfilled & _ & _).
  destruct (fill_frame self reader) as (EN & ES & EM & ET & ER).
  assert (∀ fuel, scan (S fuel) self reader =
            let '(continue, self', reader', out) := readFrom self reader in
            if continue then
              '(self'', reader'', outs) ← scan fuel self' reader';
              Some (self'', reader'', out :: outs)
            else Some (self', reader', [out])) as Hscan by done.
  rewrite readFrom_eq in Hscan. rewrite readFrom_eq. rewrite ER in *.
  set (filled := (fill self reader).1.1) in *.
  set (n := nread (read reader (_buffer_size self)).1) in *.
  destruct (decide (n ≤ 0)) as [Heof|Hdata].
  - destruct (decide (0 ≤ _matched_buffer_idx filled)) as [Hm|Hm].
    + split; [done|]. split; [split; [done | lia]|]. intros _.
      destruct (flush_wf filled Hfilled Hm) as (_ & Hidle & Hnone).
      destruct (flush_calls filled) as [Hcalls Hnodup];
        [by destruct Hfilled | done |].
      split; [|split; [lia | done]]. intros _. cbn [collected].
      split; [|split; [done | split; [done|]]].
      * rewrite Hcalls, EN. unfold flush_start. by rewrite EN, EM.
      * intros i Hi. apply Hnone. lia.
    + split; [done|]. split; [split; [done | lia]|]. intros _.
      split; [lia|]. split; [|done]. intros _. cbn [collected].
      split; [done|]. split; [done|].
      destruct Hwf as (_ & _ & _ & _ & _ & [Hidle|Htracking]); lia.
  - repeat case_decide; (split; [split; [done | lia]|]);
      (split; [split; [lia | done]|]); lia.
Qed.

(** C7.  The state tracks at most one match: after a read cycle, and after
    any number of them, [_matched_buffer_idx] is -1 or one valid slot index.
    While a match is tracked, a read cycle registers no match: the tracked
    slot stays what it was, or the window is flushed and the state returns
    to no match; the flush, if there is one, starts where the tracked slot
    put it; no "matched" line is written; and the cycle does the same
    whatever the registered patterns are, so an occurrence of a pattern in
    the slot just read changes nothing. *)
Theorem single_match_tracked (self : t) (reader : R) :
  wf self →
  let filled := (fill self reader).1.1 in
  let '(continue, self', reader', out) := readFrom self reader in
  (_matched_buffer_idx self' = -1 ∨
   0 ≤ _matched_buffer_idx self' < _buffer_num self') ∧
  (∀ k, let later := (cycles k self reader).1.1 in
        _matched_buffer_idx later = -1 ∨
        0 ≤ _matched_buffer_idx later < _buffer_num later) ∧
  (0 ≤ _matched_buffer_idx self →
   (_matched_buffer_idx self' = _matched_buffer_idx self ∧ collected out = [] ∨
    _matched_buffer_idx self' = -1 ∧
    collected out =
      emit filled <$> filter (pending filled)
        (window_order (_buffer_num self) (flush_start self))) ∧
   (∀ pos, Matched pos ∉ logged out) ∧
   ∀ target,
     readFrom (set_target self target) reader =
     (continue, set_target self' target, reader', out)).
Proof.
  intros Hwf. cbv zeta.
  pose proof (readFrom_wf self reader Hwf) as Hwf'.
  destruct (fill_wf self reader Hwf) as (Hfilled & _ & _).
  destruct (fill_frame self reader) as (EN & ES & EM & ET & ER).
  assert (∀ target, 0 ≤ _matched_buffer_idx self →
            readFrom (set_target self target) reader =
            let '(continue, self', reader', out) := readFrom self reader in
            (continue, set_target self' target, reader', out)) as Htarget.
  { intros target Hm. unfold readFrom, fill, detect, flush, collectTo, flush_start.
    destruct self as [buffers N S next m tgt flags]. cbn in *.
    destruct (read reader S) as [result reader']. cbn.
    rewrite (bool_decide_eq_false_2 (m < 0)) by lia. cbn.
    repeat case_decide; done. }
  set (filled := (fill self reader).1.1) in *.
  set (result := (fill self reader).1.2) in *.
  set (reader' := (fill self reader).2) in *.
  destruct (detect_matched filled (_next_buffer_idx self) (nread result) (tell reader'))
    as [_ Hdetect].
  set (tracked := (detect filled _ _ _).1) in *.
  set (matched := (detect filled _ _ _).2) in *.
  assert (∀ pos, Matched pos ∉ progress (tell reader')) as Hprogress.
  { intros pos. unfold progress. case_decide; [|apply not_elem_of_nil].
    intros Hin. apply list_elem_of_singleton in Hin. done. }
  assert (∀ s, wf s → 0 ≤ _matched_buffer_idx s →
            _matched_buffer_idx (flush s).1 = -1 ∧
            (flush s).2 = emit s <$> filter (pending s)
                            (window_order (_buffer_num s) (flush_start s))) as Hflush.
  { intros s Hs Hm. split; [by apply flush_wf|].
    apply flush_calls; [|done]. by destruct Hs. }
  pose proof (readFrom_eq self reader) as Heq. cbv zeta in Heq.
  fold filled result reader' tracked matched in Heq.
  destruct (readFrom self reader) as [[[continue self'] reader1] out].
  cbn [fst snd] in Hwf'.
  split; [by destruct Hwf' as (_ & _ & _ & _ & _ & ?)|].
  split; [intros k; by destruct (cycles_wf k self reader Hwf) as (_ & _ & _ & _ & _ & ?)|].
  intros Hm.
  split; [|split; [|intros target; by apply Htarget]].
  - destruct (decide (nread result ≤ 0)).
    + rewrite !decide_True in Heq by lia. injection Heq as -> -> -> ->.
      right. cbn [collected].
      destruct (Hflush filled Hfilled) as [Hidle Hcalls]; [lia|].
      split; [exact Hidle|]. etrans; [exact Hcalls|].
      unfold flush_start. by rewrite EN, EM.
    + assert (_matched_buffer_idx tracked = _matched_buffer_idx self) as Hsame
        by (destruct Hdetect as [?|(? & _)]; lia).
      assert (tracked = filled) as Htracked.
      { subst tracked. unfold detect.
        rewrite (bool_decide_eq_false_2 (_matched_buffer_idx filled < 0)) by lia. done. }
      case_decide; injection Heq as -> -> -> ->; cbn [collected].
      * right. rewrite Htracked.
        destruct (Hflush filled Hfilled) as [Hidle Hcalls]; [lia|].
        split; [exact Hidle|]. etrans; [exact Hcalls|].
        unfold flush_start. by rewrite EN, EM.
      * by left.
  - assert (matched = []) as Hnone.
    { subst matched. unfold detect.
      rewrite (bool_decide_eq_false_2 (_matched_buffer_idx filled < 0)) by lia. done. }
    intros pos. repeat case_decide; injection Heq as -> -> -> ->; cbn [logged];
      rewrite ?Hnone, ?app_nil_r; apply Hprogress.
Qed.

(** *** The flush of a tracked match *)

Lemma filter_all {A} (P : A → Prop) `{!∀ x, Decision (P x)} (l : list A) :
  Forall P l → filter P l = l.
Proof.
  induction 1 as [|x l HP _ IH]; [done|].
  by rewrite filter_cons_True, IH.
Qed.

Lemma written_length (calls : list call) (size : nat) :
  Forall (λ c, length (data c) = size) calls →
  length (written calls) = (length calls * size)%nat.
Proof.
  unfold written. induction 1 as [|c calls Hc _ IH]; [done|].
  rewrite fmap_cons. simpl. rewrite length_app, IH, Hc. done.
Qed.

(** In a state of the right shape the call for a slot in range passes the
    whole slot, [_buffer_size] bytes. *)
Lemma emit_whole_slot self i :
  shape self → 0 ≤ i < _buffer_num self →
  emit self i = Collect i (buffer_at self i) ∧
  length (buffer_at self i) = Z.to_nat (_buffer_size self).
Proof.
  intros (Hbuf & Hslots & _) Hi.
  assert (Z.to_nat i < length (_buffer self))%nat as Hlt by lia.
  destruct (lookup_lt_is_Some_2 _ _ Hlt) as [content Hcontent].
  unfold emit, buffer_at. rewrite (list_lookup_total_correct _ _ _ Hcontent).
  rewrite Forall_lookup in Hslots. specialize (Hslots _ _ Hcontent).
  rewrite take_ge by lia. done.
Qed.

Lemma flush_whole_slots self :
  wf self → 0 ≤ _matched_buffer_idx self →
  Forall (λ c, 0 ≤ slot c < _buffer_num self ∧ pending self (slot c) ∧
               data c = buffer_at self (slot c) ∧
               length (data c) = Z.to_nat (_buffer_size self))
         (flush self).2.
Proof.
  intros Hwf Hm. pose proof Hwf as (HN & _ & Hshape & _).
  destruct (flush_start_range self HN Hm) as [_ Hstart].
  destruct (flush_calls self HN Hm) as [-> _].
  apply Forall_fmap, Forall_forall. intros i Hi.
  apply list_elem_of_filter in Hi as [Hpending Hi].
  apply window_order_elem in Hi; [|done]. unfold compose.
  destruct (emit_whole_slot self i Hshape Hi) as [-> Hlen]. done.
Qed.

(** What the detection step leaves of the filled state. *)
Lemma detect_frame self idx n total :
  let self' := (detect self idx n total).1 in
  _buffer self' = _buffer self ∧ _buffer_num self' = _buffer_num self ∧
  _buffer_size self' = _buffer_size self ∧
  _next_buffer_idx self' = _next_buffer_idx self ∧
  _buffer_print_flag self' = _buffer_print_flag self.
Proof.
  intros self'. destruct (detect_matched self idx n total) as [Heq _].
  fold self' in Heq. rewrite Heq. done.
Qed.

(** C2.  In a read cycle that read data, when a match is tracked after the
    detection step, the flush start is [(matched + N/2) mod N] with integer
    division; the cycle flushes exactly when the write cursor, already
    advanced, equals the flush start; and the flush calls the sink for the
    pending slots in the order [start, start+1, ..., N-1, 0, ..., start-1],
    each call passing the whole slot, [S] bytes.  After the flush no match
    is tracked; without it the state is the one the detection step left. *)
Theorem flush_when_cursor_reaches_flush_start (self : t) (reader : R) :
  wf self →
  let idx := _next_buffer_idx self in
  let filled := (fill self reader).1.1 in
  let result := (fill self reader).1.2 in
  let reader' := (fill self reader).2 in
  let tracked := (detect filled idx (nread result) (tell reader')).1 in
  let num := _buffer_num self in
  let start := flush_start tracked in
  let '(continue, self', _, out) := readFrom self reader in
  0 < nread result →
  0 ≤ _matched_buffer_idx tracked →
  start = (_matched_buffer_idx tracked + num `div` 2) `mod` num ∧
  _next_buffer_idx tracked = (idx + 1) `mod` num ∧
  (collected out ≠ [] ↔ _next_buffer_idx tracked = start) ∧
  (_next_buffer_idx tracked = start →
     collected out = emit tracked <$> filter (pending tracked) (window_order num start) ∧
     Forall (λ c, data c = buffer_at tracked (slot c) ∧
                  length (data c) = Z.to_nat (_buffer_size self)) (collected out) ∧
     _matched_buffer_idx self' = -1) ∧
  (_next_buffer_idx tracked ≠ start → collected out = [] ∧ self' = tracked).
Proof.
  intros Hwf. cbv zeta.
  destruct (fill_wf self reader Hwf) as (Hfilled & Hnext & Hpending).
  destruct (fill_frame self reader) as (EN & ES & EM & ET & ER).
  set (filled := (fill self reader).1.1) in *.
  set (result := (fill self reader).1.2) in *.
  set (reader' := (fill self reader).2) in *.
  assert (0 ≤ _next_buffer_idx self < _buffer_num filled) as Hidx
    by (rewrite EN; by destruct Hwf as (_ & _ & _ & _ & ? & _)).
  pose proof (detect_wf filled (_next_buffer_idx self) (nread result) (tell reader')
                Hfilled Hidx) as Htracked.
  destruct (detect_frame filled (_next_buffer_idx self) (nread result) (tell reader'))
    as (DB & DN & DS & DX & DF).
  pose proof (readFrom_eq self reader) as Heq. cbv zeta in Heq.
  fold filled result reader' in Heq.
  set (tracked := (detect filled _ _ _).1) in *.
  destruct (readFrom self reader) as [[[continue self'] reader1] out].
  intros Hdata Hm.
  rewrite decide_False in Heq by lia.
  assert (0 < _buffer_num tracked) as HN by (by destruct Htracked).
  destruct (flush_start_range tracked HN Hm) as [Hstart Hrange].
  rewrite DN, EN in Hstart.
  split; [done|]. split; [by rewrite DX|].
  destruct (decide (_next_buffer_idx tracked = flush_start tracked)) as [Hready|Hwait].
  - rewrite decide_True in Heq by done.
    destruct (flush_calls tracked HN Hm) as [Hcalls _].
    pose proof (flush_whole_slots tracked Htracked Hm) as Hwhole.
    destruct (flush_wf tracked Htracked Hm) as (_ & Hidle & _).
    remember (flush tracked) as flushed eqn:Hflushed. clear Hflushed.
    injection Heq as -> -> -> ->. cbn [collected].
    assert (flushed.2 ≠ []) as Hsome.
    { rewrite Hcalls. intros Hnil. apply fmap_nil_inv in Hnil.
      apply (filter_nil_not_elem_of _ _ (_next_buffer_idx self)) in Hnil.
      - apply Hnil. apply window_order_elem; [done|]. lia.
      - unfold pending, flag_at. rewrite DF. exact Hpending. }
    split; [done|]. split; [|done]. intros _.
    split; [by rewrite Hcalls, DN, EN|]. split; [|exact Hidle].
    eapply Forall_impl; [exact Hwhole|]. intros c (_ & _ & ? & ?).
    by rewrite <- ES, <- DS.
  - rewrite decide_False in Heq by (intros [_ ?]; done).
    injection Heq as -> -> -> ->. cbn [collected].
    split; [done|]. split; [done|]. done.
Qed.

(** The state after the fill and detection steps of a cycle. *)
Lemma tracked_facts self reader :
  wf self →
  let idx := _next_buffer_idx self in
  let filled := (fill self reader).1.1 in
  let result := (fill self reader).1.2 in
  let reader' := (fill self reader).2 in
  let tracked := (detect filled idx (nread result) (tell reader')).1 in
  wf tracked ∧
  _buffer_num tracked = _buffer_num self ∧
  _buffer_size tracked = _buffer_size self ∧
  _next_buffer_idx tracked = (idx + 1) `mod` _buffer_num self ∧
  pending tracked idx ∧
  (∀ i, pending tracked i ↔ pending filled i) ∧
  (∀ i, buffer_at tracked i = buffer_at filled i) ∧
  (∀ i, 0 ≤ i → i ≠ idx → flag_at filled i = flag_at self i).
Proof.
  intros Hwf. cbv zeta.
  destruct (fill_wf self reader Hwf) as (Hfilled & Hnext & Hpending).
  destruct (fill_frame self reader) as (EN & ES & EM & ET & ER).
  assert (∀ i, 0 ≤ i → i ≠ _next_buffer_idx self →
            flag_at (fill self reader).1.1 i = flag_at self i) as Hother.
  { intros i Hi Hne. rewrite fill_eq. unfold flag_at. simpl.
    apply list_lookup_total_insert_ne. destruct Hwf as (_ & _ & _ & _ & ? & _). lia. }
  set (filled := (fill self reader).1.1) in *.
  set (result := (fill self reader).1.2) in *.
  set (reader' := (fill self reader).2) in *.
  assert (0 ≤ _next_buffer_idx self < _buffer_num filled) as Hidx
    by (rewrite EN; by destruct Hwf as (_ & _ & _ & _ & ? & _)).
  pose proof (detect_wf filled (_next_buffer_idx self) (nread result) (tell reader')
                Hfilled Hidx) as Htracked.
  destruct (detect_frame filled (_next_buffer_idx self) (nread result) (tell reader'))
    as (DB & DN & DS & DX & DF).
  unfold pending, flag_at, buffer_at in *. rewrite DB, DN, DS, DX, DF.
  split; [done|]. repeat (split; [done|]). done.
Qed.

(** C3 (amended).  When the flush made by a read cycle that read data finds
    every one of the N slots pending, the sink receives N calls of S bytes
    each, N×S bytes in all, and the content of the matched slot is the call
    at position [(N - N/2) mod N], counted from 0, of the flush; that
    position is N/2 when N is even. *)
Theorem full_window_holds_match_at_N_minus_half (self : t) (reader : R) :
  wf self →
  let idx := _next_buffer_idx self in
  let filled := (fill self reader).1.1 in
  let result := (fill self reader).1.2 in
  let reader' := (fill self reader).2 in
  let tracked := (detect filled idx (nread result) (tell reader')).1 in
  let num := _buffer_num self in
  let matched := _matched_buffer_idx tracked in
  let position := (num - num `quot` 2) `mod` num in
  let '(continue, self', _, out) := readFrom self reader in
  0 < nread result →
  0 ≤ matched →
  _next_buffer_idx tracked = flush_start tracked →
  (∀ i, 0 ≤ i < num → pending tracked i) →
  collected out = emit tracked <$> window_order num (flush_start tracked) ∧
  length (collected out) = Z.to_nat num ∧
  Z.of_nat (length (written (collected out))) = num * _buffer_size self ∧
  collected out !! Z.to_nat position = Some (Collect matched (buffer_at tracked matched)) ∧
  (Z.even num = true → position = num `quot` 2).
Proof.
  intros Hwf. cbv zeta.
  destruct (tracked_facts self reader Hwf) as (Htracked & EN & ES & _).
  pose proof (readFrom_eq self reader) as Heq. cbv zeta in Heq.
  set (tracked := (detect _ _ _ _).1) in *.
  destruct (readFrom self reader) as [[[continue self'] reader1] out].
  intros Hdata Hm Hready Hall.
  rewrite decide_False in Heq by lia. rewrite decide_True in Heq by done.
  pose proof Htracked as (HN & HS & Hshape & _ & _ & Hmatched).
  destruct (flush_start_range tracked HN Hm) as [Hstart Hrange].
  destruct (flush_calls tracked HN Hm) as [Hcalls _].
  pose proof (flush_whole_slots tracked Htracked Hm) as Hwhole.
  remember (flush tracked) as flushed eqn:Hflushed. clear Hflushed.
  injection Heq as -> -> -> ->. cbn [collected].
  rewrite filter_all in Hcalls.
  2:{ apply Forall_forall. intros i Hi. apply window_order_elem in Hi; [|done].
      apply Hall. lia. }
  rewrite EN in *.
  assert (0 ≤ (_buffer_num self - _buffer_num self `quot` 2) `mod` _buffer_num self
          < _buffer_num self) as Hposition by (apply Z.mod_pos_bound; lia).
  split; [done|]. split; [|split; [|split]].
  - by rewrite Hcalls, length_fmap, window_order_length.
  - rewrite (written_length _ (Z.to_nat (_buffer_size self))).
    + rewrite Hcalls, length_fmap, window_order_length by done. lia.
    + eapply Forall_impl; [exact Hwhole|]. intros c (_ & _ & _ & ?). by rewrite <- ES.
  - rewrite Hcalls, list_lookup_fmap, window_order_lookup by done.
    simpl. f_equal.
    assert ((flush_start tracked +
             (_buffer_num self - _buffer_num self `quot` 2) `mod` _buffer_num self)
            `mod` _buffer_num self = _matched_buffer_idx tracked) as ->.
    { rewrite Hstart, Z.quot_div_nonneg by lia.
      rewrite <- Z.add_mod by lia.
      replace (_matched_buffer_idx tracked + _buffer_num self `div` 2 +
               (_buffer_num self - _buffer_num self `div` 2))
        with (_matched_buffer_idx tracked + 1 * _buffer_num self) by lia.
      rewrite Z.mod_add by lia. apply Z.mod_small.
      destruct Hmatched; lia. }
    apply emit_whole_slot; [done|]. destruct Hmatched; lia.
  - intros Heven. apply Z.even_spec in Heven as [half Hhalf].
    rewrite Z.quot_div_nonneg by lia.
    assert (_buffer_num self `div` 2 = half) as ->
      by (rewrite Hhalf, Z.mul_comm; apply Z.div_mul; lia).
    replace (_buffer_num self - half) with half by lia.
    apply Z.mod_small. lia.
Qed.

(** *** The empty pattern *)

Lemma addTarget_elem (target : Target.t) (added pattern : bytes) :
  pattern ∈ Target._targets (Target.addTarget target added) ↔
  pattern ∈ Target._targets target ∨ pattern = added.
Proof.
  unfold Target.addTarget. simpl. rewrite elem_of_app, list_elem_of_singleton. done.
Qed.

Lemma match_empty_pattern (target : Target.t) (buffer : bytes) (len : Z) :
  [] ∈ Target._targets target → Target.match_ target buffer len = true.
Proof.
  intros Hin. unfold Target.match_. apply match_loop_true.
  exists []. split; [done | apply occurs_nil].
Qed.

(** C10.  [addTarget] registers the empty string like any other pattern.
    Once it is registered, [match] is true for every buffer and every
    length, zero included; so a read cycle that starts with no match tracked
    and reads [n > 0] bytes registers the slot it filled as matched and
    writes the "matched" line: the window is open when the cycle returns,
    or, when the cursor already stands at the flush start, it has been
    flushed in the same cycle with that slot in it. *)
Theorem empty_pattern_opens_window_every_cycle (self : t) (reader : R) :
  [] ∈ Target._targets (_target self) →
  (∀ target, [] ∈ Target._targets (Target.addTarget target [])) ∧
  (∀ buffer len, Target.match_ (_target self) buffer len = true) ∧
  (wf self →
   _matched_buffer_idx self < 0 →
   let idx := _next_buffer_idx self in
   let filled := (fill self reader).1.1 in
   let result := (fill self reader).1.2 in
   let reader' := (fill self reader).2 in
   let tracked := (detect filled idx (nread result) (tell reader')).1 in
   let '(continue, self', _, out) := readFrom self reader in
   0 < nread result →
   _matched_buffer_idx tracked = idx ∧
   Matched (tell reader') ∈ logged out ∧
   (_matched_buffer_idx self' = idx ∧ collected out = [] ∨
    _matched_buffer_idx self' = -1 ∧ emit tracked idx ∈ collected out)).
Proof.
  intros Hempty.
  split; [intros target; apply addTarget_elem; by right|].
  split; [intros buffer len; by apply match_empty_pattern|].
  intros Hwf Hidle. cbv zeta.
  destruct (tracked_facts self reader Hwf) as (Htracked & EN & ES & _ & Hpending & _).
  destruct (fill_frame self reader) as (_ & _ & EM & ET & _).
  pose proof (readFrom_eq self reader) as Heq. cbv zeta in Heq.
  assert (detect (fill self reader).1.1 (_next_buffer_idx self)
            (nread (fill self reader).1.2) (tell (fill self reader).2) =
          (set_matched_buffer_idx (fill self reader).1.1 (_next_buffer_idx self),
           [Matched (tell (fill self reader).2)])) as Hdetect.
  { unfold detect. rewrite bool_decide_eq_true_2 by lia.
    rewrite match_empty_pattern by (by rewrite ET). done. }
  rewrite Hdetect in *. cbn [fst snd] in *.
  set (tracked := set_matched_buffer_idx _ _) in *.
  assert (_matched_buffer_idx tracked = _next_buffer_idx self) as Hm by done.
  destruct (readFrom self reader) as [[[continue self'] reader1] out].
  intros Hdata. rewrite decide_False in Heq by lia.
  pose proof Hwf as (_ & _ & _ & _ & Hidx & _).
  pose proof Htracked as (HN & _).
  split; [done|].
  destruct (decide (0 ≤ _matched_buffer_idx tracked ∧
                    _next_buffer_idx tracked = flush_start tracked)) as [[Hpos Hready]|Hwait].
  - destruct (flush_start_range tracked HN Hpos) as [_ Hrange].
    destruct (flush_calls tracked HN Hpos) as [Hcalls _].
    destruct (flush_wf tracked Htracked Hpos) as (_ & Hnone & _).
    remember (flush tracked) as flushed eqn:Hflushed. clear Hflushed.
    injection Heq as -> -> -> ->. cbn [collected logged].
    split; [apply elem_of_app; right; left|].
    right. split; [done|]. rewrite Hcalls.
    apply list_elem_of_fmap. exists (_next_buffer_idx self). split; [done|].
    apply list_elem_of_filter. split; [done|].
    apply window_order_elem; [done | lia].
  - injection Heq as -> -> -> ->. cbn [collected logged].
    split; [apply elem_of_app; right; left|]. by left.
Qed.

(** *** Slots that no read cycle has selected *)

Lemma wf_flag_at self i :
  wf self → 0 ≤ i < _buffer_num self → flag_at self i = 0 ∨ flag_at self i = 1.
Proof.
  intros (_ & _ & (_ & _ & Hlen) & Hflags & _) Hi.
  assert (Z.to_nat i < length (_buffer_print_flag self))%nat as Hlt by lia.
  destruct (lookup_lt_is_Some_2 _ _ Hlt) as [flag Hflag].
  unfold flag_at. rewrite (list_lookup_total_correct _ _ _ Hflag).
  rewrite Forall_lookup in Hflags. eauto.
Qed.

(** What one read cycle does to the cursor and the flags, and which slots
    it can send: the slot it selected, or a slot that was pending. *)
Lemma readFrom_effects self reader :
  wf self →
  let idx := _next_buffer_idx self in
  let '(_, self', _, out) := readFrom self reader in
  _next_buffer_idx self' = (idx + 1) `mod` _buffer_num self ∧
  (∀ c, c ∈ collected out →
     0 ≤ slot c < _buffer_num self ∧ (slot c = idx ∨ flag_at self (slot c) = 0)) ∧
  (∀ i, 0 ≤ i < _buffer_num self → i ≠ idx → flag_at self i = 1 → flag_at self' i = 1) ∧
  (collected out ≠ [] → ∀ i, 0 ≤ i < _buffer_num self → flag_at self' i = 1).
Proof.
  intros Hwf. cbv zeta.
  destruct (fill_wf self reader Hwf) as (Hfilled & Hnext & _).
  destruct (fill_frame self reader) as (FN & _ & FM & _).
  destruct (tracked_facts self reader Hwf)
    as (Htracked & EN & ES & EX & Hpending & Hsame & _ & Hother).
  pose proof (readFrom_eq self reader) as Heq. cbv zeta in Heq.
  set (filled := (fill self reader).1.1) in *.
  set (tracked := (detect _ _ _ _).1) in *.
  assert (∀ s, wf s → _buffer_num s = _buffer_num self →
            _next_buffer_idx s = (_next_buffer_idx self + 1) `mod` _buffer_num self →
            (∀ i, pending s i ↔ pending filled i) →
            0 ≤ _matched_buffer_idx s →
            _next_buffer_idx (flush s).1 =
              (_next_buffer_idx self + 1) `mod` _buffer_num self ∧
            (∀ c, c ∈ (flush s).2 →
               0 ≤ slot c < _buffer_num self ∧
               (slot c = _next_buffer_idx self ∨ flag_at self (slot c) = 0)) ∧
            (∀ i, 0 ≤ i < _buffer_num self → flag_at (flush s).1 i = 1)) as Hflush.
  { intros s Hs HsN HsX Hsp Hm.
    destruct (flush_wf s Hs Hm) as (Hwf' & _ & Hnone).
    pose proof (flush_whole_slots s Hs Hm) as Hwhole.
    assert (_next_buffer_idx (flush s).1 = _next_buffer_idx s ∧
            _buffer_num (flush s).1 = _buffer_num s) as [EX' EN'].
    { unfold flush. destruct (collectTo_frame s (flush_start s)) as (_ & ? & _ & ? & _).
      destruct (collectTo s (flush_start s)). done. }
    split; [by rewrite EX'|]. split.
    - intros c Hc. rewrite Forall_forall in Hwhole.
      destruct (Hwhole c Hc) as (Hrange & Hp & _). rewrite HsN in Hrange.
      split; [done|]. apply Hsp in Hp.
      destruct (decide (slot c = _next_buffer_idx self)) as [|Hne]; [by left|].
      right. rewrite <- Hother by (done || lia). exact Hp.
    - intros i Hi.
      destruct (wf_flag_at (flush s).1 i Hwf') as [Hzero|Hone]; [ | | done]; [lia|].
      exfalso. apply (Hnone i); [lia | done]. }
  destruct (readFrom self reader) as [[[continue self'] reader1] out].
  repeat case_decide; injection Heq as -> -> -> ->; cbn [collected].
  - destruct (Hflush filled) as (? & ? & ?); try done.
    split; [done|]. split; [done|]. split; auto.
  - split; [done|]. split; [intros c Hc; by apply elem_of_nil in Hc|].
    split; [|done]. intros i Hi Hne. rewrite Hother by (done || lia). done.
  - destruct (Hflush tracked) as (? & ? & ?); try done; [tauto|].
    split; [done|]. split; [done|]. split; auto.
  - split; [done|]. split; [intros c Hc; by apply elem_of_nil in Hc|].
    split; [|done]. intros i Hi Hne.
    assert (flag_at tracked i = flag_at filled i) as ->.
    { destruct (detect_frame filled (_next_buffer_idx self)
                  (nread (fill self reader).1.2) (tell (fill self reader).2))
        as (_ & _ & _ & _ & DF).
      unfold flag_at. fold tracked in DF. by rewrite DF. }
    rewrite Hother by (done || lia). done.
Qed.

Lemma all_collected_cons out outs :
  all_collected (out :: outs) = collected out ++ all_collected outs.
Proof. done. Qed.

(** After [j] cycles from the constructor the slots [j .. N-1] still carry
    the flag 1 of the constructor; [k] more cycles send only slots below
    [j + k]. *)
Lemma cycles_untouched k self reader j :
  wf self → 0 ≤ j →
  _next_buffer_idx self = j `mod` _buffer_num self →
  (∀ i, j ≤ i < _buffer_num self → flag_at self i = 1) →
  ∀ c, c ∈ all_collected (cycles k self reader).2 →
    0 ≤ slot c < _buffer_num self ∧ slot c < j + Z.of_nat k.
Proof.
  revert self reader j. induction k as [|k IH]; intros self reader j Hwf Hj Hnext Hflags c.
  - intros Hc. by apply elem_of_nil in Hc.
  - cbn [cycles].
    pose proof (readFrom_effects self reader Hwf) as Heff. cbv zeta in Heff.
    pose proof (readFrom_wf self reader Hwf) as Hwf'.
    destruct (readFrom_same_shape self reader) as (EN & _); [by destruct Hwf as (_&_&?&_)|].
    destruct (readFrom self reader) as [[[continue self'] reader'] out].
    cbn [fst snd] in *. destruct Heff as (Hnext' & Hsent & Hkept & _).
    pose proof Hwf as (HN & _).
    specialize (IH self' reader' (j + 1) Hwf').
    destruct (cycles k self' reader') as [[self'' reader''] outs]. cbn [fst snd] in *.
    rewrite all_collected_cons, elem_of_app. intros [Hc|Hc].
    + destruct (Hsent c Hc) as [Hrange Hwhich]. split; [done|].
      destruct (decide (j < _buffer_num self)) as [Hlt|Hge]; [|lia].
      destruct Hwhich as [Hsel|Hzero].
      * rewrite Hsel, Hnext, Z.mod_small by lia. lia.
      * destruct (decide (slot c < j)) as [|Hnot]; [lia|].
        rewrite Hflags in Hzero by lia. done.
    + rewrite EN in IH. destruct (IH ltac:(lia)) with (c := c) as [Hrange Hbelow]; try done.
      * rewrite Hnext', Hnext. rewrite Z.add_mod_idemp_l by lia. done.
      * intros i Hi. apply Hkept; [lia | | apply Hflags; lia].
        rewrite Hnext, Z.mod_small by lia. lia.
      * split; [done | lia].
Qed.

(** The loop of the driver is a run of cycles. *)
Lemma scan_cycles fuel self reader self' reader' outs :
  scan fuel self reader = Some (self', reader', outs) →
  cycles (length outs) self reader = (self', reader', outs).
Proof.
  revert self reader outs. induction fuel as [|fuel IH]; intros self reader outs; [done|].
  cbn [scan]. destruct (readFrom self reader) as [[[continue self1] reader1] out] eqn:Hread.
  destruct continue.
  - destruct (scan fuel self1 reader1) as [[[self2 reader2] outs']|] eqn:Hscan; [|done].
    simpl. intros [= <- <- <-]. cbn [length cycles]. rewrite Hread.
    by rewrite (IH _ _ _ Hscan).
  - intros [= <- <- <-]. cbn [length cycles]. by rewrite Hread.
Qed.

(** *** A slot is sent once per selection *)

Lemma selected_by_next self self' r :
  0 < _buffer_num self → 0 ≤ _next_buffer_idx self →
  _buffer_num self' = _buffer_num self →
  _next_buffer_idx self' = (_next_buffer_idx self + 1) `mod` _buffer_num self →
  selected_by self' r = selected_by self (S r).
Proof.
  intros HN Hnext EN EX. unfold selected_by. rewrite EN, EX.
  rewrite Z.add_mod_idemp_l by lia. f_equal. lia.
Qed.

(** A slot whose flag is 1 is not sent before a cycle selects it. *)
Lemma emit_needs_selection k self reader i :
  wf self → 0 ≤ i < _buffer_num self → flag_at self i = 1 →
  ∀ q out c,
    (cycles k self reader).2 !! q = Some out → c ∈ collected out → slot c = i →
    ∃ r, (r ≤ q)%nat ∧ selected_by self r = i.
Proof.
  revert self reader. induction k as [|k IH]; intros self reader Hwf Hi Hflag q out c.
  - intros Hq. by destruct q.
  - cbn [cycles].
    pose proof (readFrom_effects self reader Hwf) as Heff. cbv zeta in Heff.
    pose proof (readFrom_wf self reader Hwf) as Hwf'.
    destruct (readFrom_same_shape self reader) as (EN & _); [by destruct Hwf as (_&_&?&_)|].
    destruct (readFrom self reader) as [[[continue self'] reader'] out0].
    cbn [fst snd] in *. destruct Heff as (Hnext' & Hsent & Hkept & _).
    pose proof Hwf as (HN & _ & _ & _ & Hnext & _).
    specialize (IH self' reader' Hwf').
    destruct (cycles k self' reader') as [[self'' reader''] outs]. cbn [fst snd] in *.
    assert (selected_by self 0 = _next_buffer_idx self) as Hzero.
    { unfold selected_by. rewrite Z.add_0_r. apply Z.mod_small. lia. }
    destruct (decide (_next_buffer_idx self = i)) as [Hsel|Hother].
    { intros _ _ _. exists 0%nat. split; [lia | by rewrite Hzero]. }
    destruct q as [|q]; cbn [lookup list_lookup].
    + intros [= <-] Hc Hslot. destruct (Hsent c Hc) as [_ [Hsel|Hpending]]; [congruence|].
      rewrite Hslot, Hflag in Hpending. done.
    + intros Hq Hc Hslot.
      destruct (IH ltac:(lia) (Hkept i Hi ltac:(congruence) Hflag) q out c Hq Hc Hslot)
        as (r & Hr & Hsel).
      exists (S r). split; [lia|].
      by rewrite <- (selected_by_next self self' r) by (done || lia).
Qed.

(** In any run of read cycles, from any state, a slot sent by cycle [p] and
    again by a later cycle [q] has been selected by a cycle in between, [q]
    included.  A cycle that read data has stored it in the slot it selected;
    the cycle that meets the end of the stream selects a slot and stores
    nothing. *)
Lemma resend_needs_reselection k self reader :
  wf self →
  ∀ p q out_p out_q c_p c_q,
    (p < q)%nat →
    (cycles k self reader).2 !! p = Some out_p →
    (cycles k self reader).2 !! q = Some out_q →
    c_p ∈ collected out_p → c_q ∈ collected out_q → slot c_p = slot c_q →
    ∃ r, (p < r ≤ q)%nat ∧ selected_by self r = slot c_p.
Proof.
  revert self reader. induction k as [|k IH]; intros self reader Hwf p q out_p out_q c_p c_q.
  - intros _ Hp. by destruct p.
  - cbn [cycles]. intros Hpq.
    pose proof (readFrom_effects self reader Hwf) as Heff. cbv zeta in Heff.
    pose proof (readFrom_wf self reader Hwf) as Hwf'.
    destruct (readFrom_same_shape self reader) as (EN & _); [by destruct Hwf as (_&_&?&_)|].
    destruct (readFrom self reader) as [[[continue self'] reader'] out0].
    cbn [fst snd] in *. destruct Heff as (Hnext' & Hsent & _ & Hflushed).
    pose proof Hwf as (HN & _ & _ & _ & Hnext & _).
    specialize (IH self' reader' Hwf').
    pose proof (emit_needs_selection k self' reader') as Hneeds.
    destruct (cycles k self' reader') as [[self'' reader''] outs]. cbn [fst snd] in *.
    destruct q as [|q]; [lia|]. destruct p as [|p]; cbn [lookup list_lookup].
    + intros [= <-] Hq Hp Hc Hslot.
      destruct (Hsent c_p Hp) as [Hrange _].
      assert (collected out0 ≠ []) as Hsome by (intros Hnil; rewrite Hnil in Hp; by apply elem_of_nil in Hp).
      destruct (Hneeds (slot c_p) Hwf' ltac:(lia) (Hflushed Hsome _ Hrange) q out_q c_q Hq Hc)
        as (r & Hr & Hsel); [done|].
      exists (S r). split; [lia|].
      by rewrite <- (selected_by_next self self' r) by (done || lia).
    + intros Hp Hq Hcp Hcq Hslot.
      destruct (IH p q out_p out_q c_p c_q ltac:(lia) Hp Hq Hcp Hcq Hslot) as (r & Hr & Hsel).
      exists (S r). split; [lia|].
      by rewrite <- (selected_by_next self self' r) by (done || lia).
Qed.

(** C6 (amended).  Right after construction no slot is pending: every flag
    is 1, "printed".  A slot is sent to the sink only after a read cycle
    has selected it: the calls made during the first [k] cycles, or during
    a run of the driver's loop of [k] cycles, are for slots below [k],
    and slot [i] is the one selected by cycle number [i]. *)
Theorem unselected_slot_never_emitted
    (garbage : Z → Z → char) (buffer_num buffer_size : Z) (target : Target.t)
    (self : t) (reader : R) (k : nat) :
  new garbage buffer_num buffer_size target = Some self →
  (∀ i, 0 ≤ i < buffer_num → flag_at self i = 1 ∧ ¬ pending self i) ∧
  (∀ c, c ∈ all_collected (cycles k self reader).2 →
     0 ≤ slot c < buffer_num ∧ slot c < Z.of_nat k) ∧
  (∀ fuel self' reader' outs,
     scan fuel self reader = Some (self', reader', outs) →
     ∀ c, c ∈ all_collected outs →
       0 ≤ slot c < buffer_num ∧ slot c < Z.of_nat (length outs)).
Proof.
  intros Hnew.
  destruct (new_Some _ _ _ _ _ Hnew) as (Hwf & EN & ES & EX & EM & ET & EF).
  assert (∀ i, 0 ≤ i < buffer_num → flag_at self i = 1) as Hflags.
  { intros i Hi. unfold flag_at. rewrite EF.
    apply lookup_total_replicate_2. lia. }
  assert (∀ k' c, c ∈ all_collected (cycles k' self reader).2 →
            0 ≤ slot c < buffer_num ∧ slot c < Z.of_nat k') as Hcycles.
  { intros k' c Hc. rewrite <- EN. pose proof Hwf as (HN & _).
    apply (cycles_untouched k' self reader 0 Hwf) in Hc; [done | lia | |].
    - by rewrite EX, Z.mod_0_l by lia.
    - intros i Hi. apply Hflags. lia. }
  split; [|split].
  - intros i Hi. split; [by apply Hflags|].
    unfold pending. rewrite Hflags by done. done.
  - apply Hcycles.
  - intros fuel self' reader' outs Hscan c Hc.
    apply scan_cycles in Hscan. apply Hcycles. by rewrite Hscan.
Qed.

End RingBufferProperties.

(** ** The runs of [test()] *)

Section Runs.
Import RingBuffer.
Local Open Scope string_scope.

(** The first block of [test()]. *)
Example test_1 garbage :
  written ∘ all_collected <$>
    run garbage 4 4 target_ab 14 "000011112222aaab3333bbbb4444cccc5555aaab666677778888" =
  Some (str "11112222aaab3333cccc5555aaab6666").
Proof. vm_compute. reflexivity. Qed.

(** The second block: a match right after a flush; the slot already sent
    is skipped. *)
Example test_2 garbage :
  written ∘ all_collected <$>
    run garbage 4 4 target_ab 11 "000011112222aaab3333bbbbaaab666677778888" =
  Some (str "11112222aaab3333bbbbaaab6666").
Proof. vm_compute. reflexivity. Qed.

(** The third block. *)
Example test_3 garbage :
  written ∘ all_collected <$>
    run garbage 4 4 target_ab 9 "000011112222aaab3333bbbb4444cccc" =
  Some (str "11112222aaab3333").
Proof. vm_compute. reflexivity. Qed.

(** The fourth block: a match in the first slot read. *)
Example test_4 garbage :
  written ∘ all_collected <$>
    run garbage 4 4 target_ab 9 "aaab0000111122223333bbbb4444cccc" =
  Some (str "aaab0000").
Proof. vm_compute. reflexivity. Qed.

(** The fifth block asserts ["aaab0000"]; the code sends the three newest
    chunks and then the oldest one, which the cycle that met the end of
    the stream marked as not printed. *)
Example test_5 garbage :
  written ∘ all_collected <$>
    run garbage 4 4 target_ab 9 "0000111122223333bbbb4444ccccaaab" =
  Some (str "4444ccccaaabbbbb").
Proof. vm_compute. reflexivity. Qed.

(** C5.  With 4 slots of 4 bytes and the pattern "ab", the loop over the
    52-byte input ends after 14 read cycles, the last one meeting the end
    of the stream; exactly two cycles flush, the first sending
    "11112222aaab3333" and the second "cccc5555aaab6666", and the sink
    holds "11112222aaab3333cccc5555aaab6666". *)
Theorem two_matches_give_two_windows (garbage : Z → Z → char) :
  ∃ outs,
    run garbage 4 4 target_ab 14 "000011112222aaab3333bbbb4444cccc5555aaab666677778888"
      = Some outs ∧
    length outs = 14%nat ∧
    flushes outs =
      [ [Collect 1 (str "1111"); Collect 2 (str "2222");
         Collect 3 (str "aaab"); Collect 0 (str "3333")];
        [Collect 3 (str "cccc"); Collect 0 (str "5555");
         Collect 1 (str "aaab"); Collect 2 (str "6666")] ] ∧
    written <$> flushes outs = [str "11112222aaab3333"; str "cccc5555aaab6666"] ∧
    written (all_collected outs) = str "11112222aaab3333cccc5555aaab6666".
Proof.
  eexists. split; [vm_compute; reflexivity|].
  vm_compute. repeat split; reflexivity.
Qed.

(** C1, at the input where it fails.  The chunk "2222" is read once, into
    slot 2, and sent with the first window.  The second match is tracked
    when the stream ends; the cycle that meets the end selects slot 2,
    reads nothing into it and marks it not printed, and the forced flush
    sends its content a second time. *)
Theorem slot_sent_again_at_end_of_stream (garbage : Z → Z → char) :
  ∃ outs,
    run garbage 4 4 target_ab 7 "000011112222aaab3333xxab" = Some outs ∧
    flushes outs =
      [ [Collect 1 (str "1111"); Collect 2 (str "2222");
         Collect 3 (str "aaab"); Collect 0 (str "3333")];
        [Collect 1 (str "xxab"); Collect 2 (str "2222")] ] ∧
    written (all_collected outs) = str "11112222aaab3333xxab2222".
Proof.
  eexists. split; [vm_compute; reflexivity|].
  vm_compute. repeat split; reflexivity.
Qed.

(** C3, as stated, fails twice.  With 4 slots the match in the first slot
    read has no window before it, and its flush sends 8 bytes, not 16.
    With 3 slots, all pending, the flush sends 3×1 bytes and the matched
    slot, slot 0 with content "a", is the call at position 2, while
    position 3/2 = 1 holds slot 2. *)
Lemma window_size_and_centre_counterexample :
  (∃ outs calls,
     run stars 4 4 target_ab 9 "aaab0000111122223333bbbb4444cccc" = Some outs ∧
     flushes outs = [calls] ∧
     Z.of_nat (length (written calls)) ≠ 4 * 4) ∧
  (∃ outs calls,
     run stars 3 1 target_a 6 "xyzaw" = Some outs ∧
     flushes outs = [calls] ∧
     Z.of_nat (length (written calls)) = 3 * 1 ∧
     calls !! Z.to_nat (3 `quot` 2) = Some (Collect 2 (str "z")) ∧
     calls !! 2%nat = Some (Collect 0 (str "a"))).
Proof.
  split.
  - eexists _, _. split; [vm_compute; reflexivity|].
    split; [vm_compute; reflexivity|]. vm_compute. discriminate.
  - eexists _, _. split; [vm_compute; reflexivity|].
    split; [vm_compute; reflexivity|]. vm_compute. repeat split; reflexivity.
Qed.

(** C6, as stated, fails.  After construction no slot is pending: each
    flag is 1.  And a slot that never received a byte from the source is
    sent: after "aaab" the stream ends, the cycle that meets the end marks
    slot 1 not printed, and the forced flush sends the four bytes the
    allocation left there. *)
Lemma pending_after_construction_counterexample :
  (∃ self,
     new stars 4 4 target_ab = Some self ∧
     ∀ i, i ∈ [0; 1; 2; 3] → flag_at self i = 1 ∧ ¬ pending self i) ∧
  (∃ outs,
     run stars 4 4 target_ab 2 "aaab" = Some outs ∧
     all_collected outs = [Collect 0 (str "aaab"); Collect 1 (str "****")]).
Proof.
  split.
  - eexists. split; [vm_compute; reflexivity|].
    intros i Hi. repeat (apply elem_of_cons in Hi as [->|Hi]);
      [..|by apply elem_of_nil in Hi]; (split; [reflexivity | vm_compute; discriminate]).
  - eexists. split; [vm_compute; reflexivity|]. vm_compute. reflexivity.
Qed.

(** *** The theorems at concrete states *)

Local Ltac by_decision := apply (bool_decide_unpack _); vm_compute; exact I.

Lemma shape_fixed_for_the_run_witness :
  shape ring_tracking ∧
  same_shape ring_tracking (readFrom ring_tracking more_input).1.1.2 ∧
  same_shape ring_tracking (collectTo ring_tracking 1).1 ∧
  _buffer (collectTo ring_tracking 1).1 = _buffer ring_tracking ∧
  same_shape ring_tracking (cycles 3 ring_tracking more_input).1.1.
Proof.
  assert (shape ring_tracking) as Hshape by by_decision.
  split; [exact Hshape|].
  exact (shape_fixed_for_the_run ring_tracking more_input 1 3 Hshape).
Defined.

Lemma readFrom_false_at_end_of_stream_witness :
  wf ring_tracking ∧
  nread (read no_input (_buffer_size ring_tracking)).1 ≤ 0 ∧
  (readFrom ring_tracking no_input).1.1.1 = false.
Proof.
  assert (wf ring_tracking) as Hwf by by_decision.
  assert (nread (read no_input (_buffer_size ring_tracking)).1 ≤ 0) as Heof
    by (vm_compute; discriminate).
  split; [exact Hwf|]. split; [exact Heof|].
  pose proof (readFrom_false_at_end_of_stream ring_tracking no_input Hwf) as Hthm.
  cbv zeta in Hthm.
  destruct (readFrom ring_tracking no_input) as [[[continue self'] reader'] out].
  destruct Hthm as [Hfalse _]. apply Hfalse. exact Heof.
Defined.

Lemma single_match_tracked_witness :
  wf ring_tracking ∧
  0 ≤ _matched_buffer_idx ring_tracking ∧
  ∀ pos, Matched pos ∉ logged (readFrom ring_tracking more_input).2.
Proof.
  assert (wf ring_tracking) as Hwf by by_decision.
  assert (0 ≤ _matched_buffer_idx ring_tracking) as Hm by (vm_compute; discriminate).
  split; [exact Hwf|]. split; [exact Hm|].
  pose proof (single_match_tracked ring_tracking more_input Hwf) as Hthm.
  cbv zeta in Hthm.
  destruct (readFrom ring_tracking more_input) as [[[continue self'] reader'] out].
  destruct Hthm as (_ & _ & Htracking). destruct (Htracking Hm) as (_ & Hlog & _).
  exact Hlog.
Defined.

Lemma flush_when_cursor_reaches_flush_start_witness :
  let tracked :=
    (detect (fill ring_tracking more_input).1.1 0
       (nread (fill ring_tracking more_input).1.2)
       (tell (fill ring_tracking more_input).2)).1 in
  wf ring_tracking ∧
  0 < nread (fill ring_tracking more_input).1.2 ∧
  0 ≤ _matched_buffer_idx tracked ∧
  flush_start tracked = (_matched_buffer_idx tracked + 4 `div` 2) `mod` 4 ∧
  (collected (readFrom ring_tracking more_input).2 ≠ [] ↔
   _next_buffer_idx tracked = flush_start tracked).
Proof.
  intros tracked.
  assert (wf ring_tracking) as Hwf by by_decision.
  assert (0 < nread (fill ring_tracking more_input).1.2) as Hdata
    by (vm_compute; reflexivity).
  assert (0 ≤ _matched_buffer_idx tracked) as Hm by (vm_compute; discriminate).
  split; [exact Hwf|]. split; [exact Hdata|]. split; [exact Hm|].
  pose proof (flush_when_cursor_reaches_flush_start ring_tracking more_input Hwf) as Hthm.
  cbv zeta in Hthm.
  destruct (readFrom ring_tracking more_input) as [[[continue self'] reader'] out].
  destruct (Hthm Hdata Hm) as (Hstart & _ & Hwhen & _).
  split; [exact Hstart | exact Hwhen].
Defined.

Lemma full_window_holds_match_at_N_minus_half_witness :
  let tracked :=
    (detect (fill ring_tracking more_input).1.1 0
       (nread (fill ring_tracking more_input).1.2)
       (tell (fill ring_tracking more_input).2)).1 in
  wf ring_tracking ∧
  0 < nread (fill ring_tracking more_input).1.2 ∧
  0 ≤ _matched_buffer_idx tracked ∧
  _next_buffer_idx tracked = flush_start tracked ∧
  (∀ i, 0 ≤ i < 4 → pending tracked i) ∧
  Z.of_nat (length (written (collected (readFrom ring_tracking more_input).2))) = 4 * 4 ∧
  collected (readFrom ring_tracking more_input).2 !! Z.to_nat ((4 - 4 `quot` 2) `mod` 4) =
    Some (Collect (_matched_buffer_idx tracked)
            (buffer_at tracked (_matched_buffer_idx tracked))).
Proof.
  intros tracked.
  assert (wf ring_tracking) as Hwf by by_decision.
  assert (0 < nread (fill ring_tracking more_input).1.2) as Hdata
    by (vm_compute; reflexivity).
  assert (0 ≤ _matched_buffer_idx tracked) as Hm by (vm_compute; discriminate).
  assert (_next_buffer_idx tracked = flush_start tracked) as Hready
    by (vm_compute; reflexivity).
  assert (∀ i, 0 ≤ i < 4 → pending tracked i) as Hall.
  { intros i Hi. assert (i = 0 ∨ i = 1 ∨ i = 2 ∨ i = 3) as Hcases by lia.
    destruct Hcases as [->|[->|[->| ->]]]; vm_compute; reflexivity. }
  split; [exact Hwf|]. split; [exact Hdata|]. split; [exact Hm|].
  split; [exact Hready|]. split; [exact Hall|].
  pose proof (full_window_holds_match_at_N_minus_half ring_tracking more_input Hwf) as Hthm.
  cbv zeta in Hthm.
  destruct (readFrom ring_tracking more_input) as [[[continue self'] reader'] out].
  destruct (Hthm Hdata Hm Hready Hall) as (_ & _ & Hbytes & Hcentre & _).
  split; [exact Hbytes | exact Hcentre].
Defined.

Lemma empty_pattern_opens_window_every_cycle_witness :
  [] ∈ Target._targets (_target ring_empty_pattern) ∧
  Target.match_ (_target ring_empty_pattern) [] 0 = true ∧
  Matched (tell (fill ring_empty_pattern more_input).2)
    ∈ logged (readFrom ring_empty_pattern more_input).2.
Proof.
  assert ([] ∈ Target._targets (_target ring_empty_pattern)) as Hempty
    by (vm_compute; right; left).
  assert (wf ring_empty_pattern) as Hwf by by_decision.
  assert (_matched_buffer_idx ring_empty_pattern < 0) as Hidle
    by (vm_compute; reflexivity).
  assert (0 < nread (fill ring_empty_pattern more_input).1.2) as Hdata
    by (vm_compute; reflexivity).
  split; [exact Hempty|].
  pose proof (empty_pattern_opens_window_every_cycle ring_empty_pattern more_input Hempty)
    as (_ & Hmatch & Hcycle).
  split; [apply Hmatch|].
  specialize (Hcycle Hwf Hidle). cbv zeta in Hcycle.
  destruct (readFrom ring_empty_pattern more_input) as [[[continue self'] reader'] out].
  destruct (Hcycle Hdata) as (_ & Hlog & _). exact Hlog.
Defined.

Lemma unselected_slot_never_emitted_witness :
  new stars 4 4 target_ab = Some ring_fresh ∧
  ∀ c, c ∈ all_collected (cycles 2 ring_fresh (StreamReader.new (str "aaab0000"))).2 →
       0 ≤ slot c < 4 ∧ slot c < Z.of_nat 2.
Proof.
  assert (new stars 4 4 target_ab = Some ring_fresh) as Hnew by (vm_compute; reflexivity).
  split; [exact Hnew|].
  pose proof (unselected_slot_never_emitted stars 4 4 target_ab ring_fresh
                (StreamReader.new (str "aaab0000")) 2 Hnew) as (_ & Hsent & _).
  exact Hsent.
Defined.

End Runs.

(** * Further properties of the code *)

(** ** Target: registration and matching *)

(** X1.  What [match] answers depends on the set of registered patterns
    only, not on their order or on repetitions; and after [addTarget] it
    answers true exactly when it did before or the added pattern occurs in
    the probed bytes. *)
Theorem match_depends_on_the_set_of_patterns
    (self : Target.t) (added : bytes) (buffer : bytes) (len : Z) :
  (Target.match_ (Target.addTarget self added) buffer len = true ↔
     Target.match_ self buffer len = true ∨
     occurs added (take (Z.to_nat len) buffer)) ∧
  (∀ other : Target.t,
     (∀ pattern, pattern ∈ Target._targets other ↔ pattern ∈ Target._targets self) →
     Target.match_ other buffer len = Target.match_ self buffer len).
Proof.
  unfold Target.match_. split.
  - rewrite !match_loop_true. split.
    + intros (p & Hin & Hocc). apply addTarget_elem in Hin as [Hin | ->]; eauto.
    + intros [(p & Hin & Hocc) | Hocc].
      * exists p. split; [apply addTarget_elem; by left | done].
      * exists added. split; [apply addTarget_elem; by right | done].
  - intros other Hsame.
    destruct (Target.match_loop _ (Target._targets other)).1 eqn:Hother,
             (Target.match_loop _ (Target._targets self)).1 eqn:Hself; try done.
    + apply match_loop_true in Hother as (p & Hin & Hocc).
      assert ((Target.match_loop (take (Z.to_nat len) buffer) (Target._targets self)).1 = true)
        as Htrue by (apply match_loop_true; exists p; split; [by apply Hsame | done]).
      congruence.
    + apply match_loop_true in Hself as (p & Hin & Hocc).
      assert ((Target.match_loop (take (Z.to_nat len) buffer) (Target._targets other)).1 = true)
        as Htrue by (apply match_loop_true; exists p; split; [by apply Hsame | done]).
      congruence.
Qed.

(** ** RingBuffer: what a flush and a read cycle leave alone *)

Section MoreRingProperties.
Import RingBuffer.
Context `{Reader R}.

Lemma collect_fold_nothing_pending self l acc :
  (∀ i, i ∈ l → acc.1 !!! Z.to_nat i ≠ 0) →
  foldl (collect_step self) acc l = acc.
Proof.
  revert acc. induction l as [|i l IH]; intros acc Hnone; [done|].
  cbn [foldl]. unfold collect_step at 2.
  rewrite decide_False by (apply Hnone; left).
  apply IH. intros j Hj. apply Hnone. by right.
Qed.

(** X2.  A flush leaves nothing to flush: right after [collectTo], from
    whatever start index, a second [collectTo] makes no call to the sink and
    leaves the state as it is. *)
Theorem collectTo_again_sends_nothing (self : t) (start start' : Z) :
  shape self →
  0 ≤ start < _buffer_num self →
  0 ≤ start' < _buffer_num self →
  (collectTo (collectTo self start).1 start').2 = [] ∧
  (collectTo (collectTo self start).1 start').1 = (collectTo self start).1.
Proof.
  intros (_ & _ & Hlen) Hstart Hstart'.
  pose proof (λ i, collectTo_flag_at self start i Hstart Hlen) as Hflags.
  destruct (collectTo_frame self start) as (_ & EN & _).
  set (flushed := (collectTo self start).1) in *. clearbody flushed.
  assert (∀ l, (∀ i, i ∈ l → 0 ≤ i < _buffer_num self) →
            foldl (collect_step flushed) (_buffer_print_flag flushed, []) l =
            (_buffer_print_flag flushed, [])) as Hnoop.
  { intros l Hl. apply collect_fold_nothing_pending. intros i Hi. cbn [fst].
    specialize (Hflags i (Hl i Hi)). unfold flag_at in Hflags. rewrite Hflags.
    case_decide; lia. }
  unfold collectTo. rewrite EN.
  rewrite !Hnoop by (intros i Hi; apply elem_of_seqZ in Hi; lia).
  cbn [fst snd]. split; [done|]. by destruct flushed.
Qed.

Lemma readFrom_buffers self reader :
  wf self →
  let self' := (readFrom self reader).1.1.2 in
  _target self' = _target self ∧
  ∀ i, 0 ≤ i → i ≠ _next_buffer_idx self → buffer_at self' i = buffer_at self i.
Proof.
  intros Hwf. cbv zeta.
  destruct (tracked_facts self reader Hwf) as (_ & _ & _ & _ & _ & _ & Hbuf & _).
  destruct (fill_frame self reader) as (_ & _ & _ & ET & _).
  assert (∀ i, 0 ≤ i → i ≠ _next_buffer_idx self →
            buffer_at (fill self reader).1.1 i = buffer_at self i) as Hother.
  { intros i Hi Hne. rewrite fill_eq. unfold buffer_at. simpl.
    apply list_lookup_total_insert_ne. destruct Hwf as (_ & _ & _ & _ & ? & _). lia. }
  rewrite readFrom_eq.
  set (filled := (fill self reader).1.1) in *.
  assert (_target (detect filled (_next_buffer_idx self) (nread (fill self reader).1.2)
                     (tell (fill self reader).2)).1 = _target filled) as DT.
  { destruct (detect_matched filled (_next_buffer_idx self)
                (nread (fill self reader).1.2) (tell (fill self reader).2)) as [-> _]. done. }
  set (tracked := (detect _ _ _ _).1) in *.
  assert (∀ s, _target s = _target self →
               (∀ i, 0 ≤ i → i ≠ _next_buffer_idx self → buffer_at s i = buffer_at self i) →
               _target (flush s).1 = _target self ∧
               ∀ i, 0 ≤ i → i ≠ _next_buffer_idx self →
                    buffer_at (flush s).1 i = buffer_at self i) as Hflush.
  { intros s Ht Hb. unfold flush.
    destruct (collectTo_frame s (flush_start s)) as (EB & _ & _ & _ & _ & ET').
    destruct (collectTo s (flush_start s)) as [s' calls]. cbn [fst] in *.
    split; [simpl; congruence|]. intros i Hi Hne.
    rewrite <- (Hb i Hi Hne). unfold buffer_at. simpl. by rewrite EB. }
  assert (∀ i, 0 ≤ i → i ≠ _next_buffer_idx self → buffer_at tracked i = buffer_at self i)
    as Htracked by (intros i Hi Hne; rewrite Hbuf; by apply Hother).
  repeat case_decide; cbn [fst snd]; auto.
  - apply Hflush; [congruence | done].
  - split; [congruence | done].
Qed.

Lemma cycles_next k self reader :
  wf self →
  _next_buffer_idx (cycles k self reader).1.1 =
  (_next_buffer_idx self + Z.of_nat k) `mod` _buffer_num self.
Proof.
  revert self reader. induction k as [|k IH]; intros self reader Hwf.
  - cbn [cycles fst]. rewrite Z.add_0_r. symmetry. apply Z.mod_small.
    by destruct Hwf as (_ & _ & _ & _ & ? & _).
  - cbn [cycles].
    pose proof (readFrom_effects self reader Hwf) as Heff. cbv zeta in Heff.
    pose proof (readFrom_wf self reader Hwf) as Hwf'.
    destruct (readFrom_same_shape self reader) as (EN & _); [by destruct Hwf as (_&_&?&_)|].
    destruct (readFrom self reader) as [[[continue self'] reader'] out].
    cbn [fst snd] in *. destruct Heff as (Hnext' & _).
    specialize (IH self' reader' Hwf').
    destruct (cycles k self' reader') as [[self'' reader''] outs]. cbn [fst snd] in *.
    pose proof Hwf as (HN & _).
    rewrite IH, EN, Hnext', Z.add_mod_idemp_l by lia. f_equal. lia.
Qed.

(** X3.  The slots are filled round robin and one at a time: a read cycle
    advances the cursor by one slot modulo N, changes the content of no slot
    but the one the cursor stood at, and keeps the target; after [k] cycles
    from a state with the cursor at [c] the cursor is at [(c + k) mod N]. *)
Theorem read_cycle_fills_one_slot_round_robin (self : t) (reader : R) (k : nat) :
  wf self →
  let idx := _next_buffer_idx self in
  let '(_, self', _, _) := readFrom self reader in
  _next_buffer_idx self' = (idx + 1) `mod` _buffer_num self ∧
  _target self' = _target self ∧
  (∀ i, 0 ≤ i → i ≠ idx → buffer_at self' i = buffer_at self i) ∧
  _next_buffer_idx (cycles k self reader).1.1 =
    (idx + Z.of_nat k) `mod` _buffer_num self.
Proof.
  intros Hwf. cbv zeta.
  pose proof (readFrom_effects self reader Hwf) as Heff. cbv zeta in Heff.
  pose proof (readFrom_buffers self reader Hwf) as Hbuf. cbv zeta in Hbuf.
  pose proof (cycles_next k self reader Hwf) as Hnext.
  destruct (readFrom self reader) as [[[continue self'] reader'] out].
  cbn [fst snd] in Hbuf.
  destruct Heff as (Hnext' & _). destruct Hbuf as [ET Hbuf]. done.
Qed.

End MoreRingProperties.

(** ** RingBuffer: runs of read cycles *)

Section RunProperties.
Import RingBuffer.
Context `{Reader R}.

Lemma readFrom_calls_whole self reader :
  wf self →
  Forall (λ c, length (data c) = Z.to_nat (_buffer_size self) ∧
               0 ≤ slot c < _buffer_num self)
         (collected (readFrom self reader).2).
Proof.
  intros Hwf.
  destruct (tracked_facts self reader Hwf) as (Htracked & EN & ES & _).
  destruct (fill_wf self reader Hwf) as (Hfilled & _ & _).
  destruct (fill_frame self reader) as (FN & FS & _).
  rewrite readFrom_eq.
  assert (∀ s, wf s → _buffer_num s = _buffer_num self →
               _buffer_size s = _buffer_size self → 0 ≤ _matched_buffer_idx s →
               Forall (λ c, length (data c) = Z.to_nat (_buffer_size self) ∧
                            0 ≤ slot c < _buffer_num self) (flush s).2) as Hflush.
  { intros s Hs HN HS Hm. eapply Forall_impl; [exact (flush_whole_slots s Hs Hm)|].
    intros c (? & _ & _ & ?). rewrite <- HN, <- HS. done. }
  repeat case_decide; cbn [snd collected]; auto.
  apply Hflush; tauto.
Qed.

Lemma cycles_calls_whole k self reader :
  wf self →
  Forall (λ c, length (data c) = Z.to_nat (_buffer_size self) ∧
               0 ≤ slot c < _buffer_num self)
         (all_collected (cycles k self reader).2).
Proof.
  revert self reader. induction k as [|k IH]; intros self reader Hwf.
  - constructor.
  - cbn [cycles].
    pose proof (readFrom_calls_whole self reader Hwf) as Hout.
    pose proof (readFrom_wf self reader Hwf) as Hwf'.
    destruct (readFrom_same_shape self reader) as (EN & ES & _);
      [by destruct Hwf as (_&_&?&_)|].
    destruct (readFrom self reader) as [[[continue self'] reader'] out].
    cbn [fst snd] in *. specialize (IH self' reader' Hwf').
    destruct (cycles k self' reader') as [[self'' reader''] outs]. cbn [fst snd] in *.
    rewrite all_collected_cons. apply Forall_app. split; [done|].
    by rewrite <- EN, <- ES.
Qed.

(** X4.  The sink only ever receives whole slots: in any run of read
    cycles every call passes exactly S bytes of a slot in range, so the
    number of bytes written is the number of calls times S, whatever the
    length of the source and of its last chunk. *)
Theorem sink_receives_whole_slots (self : t) (reader : R) (k : nat) :
  wf self →
  let calls := all_collected (cycles k self reader).2 in
  Forall (λ c, length (data c) = Z.to_nat (_buffer_size self) ∧
               0 ≤ slot c < _buffer_num self) calls ∧
  Z.of_nat (length (written calls)) = Z.of_nat (length calls) * _buffer_size self.
Proof.
  intros Hwf calls. pose proof (cycles_calls_whole k self reader Hwf) as Hwhole.
  fold calls in Hwhole. split; [done|].
  rewrite (written_length calls (Z.to_nat (_buffer_size self))).
  - destruct Hwf as (_ & HS & _). lia.
  - eapply Forall_impl; [exact Hwhole|]. by intros c [? _].
Qed.

Lemma store_short stored old :
  (length stored ≤ length old)%nat →
  store stored old = stored ++ drop (length stored) old.
Proof.
  intros Hlen. unfold store. apply take_ge.
  rewrite length_app, length_drop. lia.
Qed.

(** X5.  A read that stores [n <= S] bytes replaces the first [n] bytes of
    the selected slot and leaves the rest of the slot as it was; when the
    same cycle flushes, after reading [n > 0], the sink receives the slot
    with those old bytes behind the new ones. *)
Theorem short_read_keeps_the_tail_of_the_slot (self : t) (reader : R) :
  wf self →
  let idx := _next_buffer_idx self in
  let result := (read reader (_buffer_size self)).1 in
  let content := stored result ++ drop (length (stored result)) (buffer_at self idx) in
  Z.of_nat (length (stored result)) ≤ _buffer_size self →
  buffer_at (fill self reader).1.1 idx = content ∧
  (0 < nread result →
   collected (readFrom self reader).2 ≠ [] →
   Collect idx content ∈ collected (readFrom self reader).2).
Proof.
  intros Hwf idx result content Hlen.
  pose proof Hwf as (HN & HS & (Hbuf & Hslots & Hflags) & _ & Hnext & _).
  assert (Z.to_nat idx < length (_buffer self))%nat as Hlt by (unfold idx; lia).
  destruct (lookup_lt_is_Some_2 _ _ Hlt) as [old Hold].
  assert (length old = Z.to_nat (_buffer_size self)) as Hold_len
    by (rewrite Forall_lookup in Hslots; eauto).
  assert (buffer_at (fill self reader).1.1 idx = content) as Hcontent.
  { rewrite fill_eq. unfold buffer_at, content. simpl.
    rewrite list_lookup_total_insert_eq by done. fold result.
    unfold buffer_at, idx. rewrite (list_lookup_total_correct _ _ _ Hold).
    apply store_short. lia. }
  split; [done|]. intros Hdata Hsome.
  destruct (tracked_facts self reader Hwf)
    as (Htracked & EN & ES & EX & Hpending & _ & Hsame & _).
  destruct (fill_frame self reader) as (_ & _ & _ & _ & ER). fold result in ER.
  rewrite readFrom_eq in *. rewrite ER in *.
  rewrite decide_False in * by lia.
  set (tracked := (detect _ _ _ _).1) in *.
  destruct (decide (0 ≤ _matched_buffer_idx tracked ∧
                    _next_buffer_idx tracked = flush_start tracked)) as [[Hm Hready]|Hwait];
    cbn [snd collected] in *; [|done].
  pose proof Htracked as (HN' & _ & Hshape & _).
  destruct (flush_start_range tracked HN' Hm) as [_ Hrange].
  destruct (flush_calls tracked HN' Hm) as [-> _].
  apply list_elem_of_fmap. exists idx. split.
  - destruct (emit_whole_slot tracked idx Hshape) as [-> _]; [unfold idx; lia|].
    by rewrite Hsame, Hcontent.
  - apply list_elem_of_filter. split; [exact Hpending|].
    apply window_order_elem; [done | unfold idx; lia].
Qed.

(** *** The tracked match and the cursor *)

Lemma mod_add_inj (n m a b : Z) :
  0 ≤ a < n → 0 ≤ b < n → (m + a) `mod` n = (m + b) `mod` n → a = b.
Proof.
  intros Ha Hb Heq.
  assert ((a - b) `mod` n = 0) as Hdiff.
  { replace (a - b) with ((m + a) - (m + b)) by lia.
    rewrite Zminus_mod, Heq, Z.sub_diag. apply Z.mod_0_l. lia. }
  apply Z.mod_divide in Hdiff as [q Hq]; [|lia].
  assert (q = 0) as -> by nia. lia.
Qed.

Lemma occurs_take pattern (buffer : bytes) n :
  occurs pattern (take n buffer) → occurs pattern buffer.
Proof.
  intros (before & after & Heq). exists before, (after ++ drop n buffer).
  rewrite <- (take_drop n buffer) at 1. rewrite Heq, <- !app_assoc. done.
Qed.

Lemma new_anchored garbage buffer_num buffer_size target self :
  new garbage buffer_num buffer_size target = Some self → anchored self.
Proof.
  intros Hnew. destruct (new_Some _ _ _ _ _ Hnew) as (_ & _ & _ & _ & EM & _).
  unfold anchored. rewrite EM. lia.
Qed.

Lemma readFrom_anchored self reader :
  wf self → anchored self → anchored (readFrom self reader).1.1.2.
Proof.
  intros Hwf Hanch.
  destruct (tracked_facts self reader Hwf)
    as (Htracked & EN & ES & EX & Hpending & Hpend & Hbuf & Hflag).
  destruct (fill_wf self reader Hwf) as (Hfilled & _ & _).
  destruct (fill_frame self reader) as (FN & FS & FM & FT & _).
  pose proof (readFrom_buffers self reader Hwf) as Hframe. cbv zeta in Hframe.
  rewrite readFrom_eq in *.
  set (filled := (fill self reader).1.1) in *.
  set (result := (fill self reader).1.2) in *.
  set (reader' := (fill self reader).2) in *.
  destruct (detect_matched filled (_next_buffer_idx self) (nread result) (tell reader'))
    as [Hset Hdetect].
  set (tracked := (detect _ _ _ _).1) in *.
  assert (∀ s, wf s → 0 ≤ _matched_buffer_idx s → anchored (flush s).1) as Hflush.
  { intros s Hs Hm. destruct (flush_wf s Hs Hm) as (_ & Hidle & _).
    unfold anchored. rewrite Hidle. lia. }
  pose proof Hwf as (HN & _ & _ & _ & Hnext & Hmatched).
  destruct (decide (nread result ≤ 0)) as [Heof|Hdata].
  { destruct (decide (0 ≤ _matched_buffer_idx filled)) as [Hm|Hm]; cbn [fst snd].
    - by apply Hflush.
    - unfold anchored. intros ?. lia. }
  destruct (decide (0 ≤ _matched_buffer_idx tracked ∧
                    _next_buffer_idx tracked = flush_start tracked)) as [[Hm Hready]|Hwait];
    cbn [fst snd] in *.
  { by apply Hflush. }
  destruct Hframe as [ET Hother].
  intros Hm.
  assert (_next_buffer_idx tracked ≠ flush_start tracked) as Hne by tauto.
  pose proof Htracked as (HN' & _).
  destruct (flush_start_range tracked HN' Hm) as [Hstart _].
  rewrite EN in Hstart. rewrite Hstart, EX in Hne.
  rewrite EN, Z.quot_div_nonneg by lia.
  assert (0 ≤ _buffer_num self `div` 2 < _buffer_num self) as Hhalf.
  { split; [apply Z.div_pos; lia | apply Z.div_lt; lia]. }
  destruct Hdetect as [Hkept | (Hidle & Hidx & Hmatch & _)].
  - (* the match was tracked before the cycle *)
    rewrite Hkept, FM in *.
    destruct (Hanch Hm) as ((d & Hd & Hcursor) & Hp & (len & Hlen)).
    rewrite Z.quot_div_nonneg in Hd by lia.
    assert (_next_buffer_idx self ≠ _matched_buffer_idx self) as Hsel.
    { rewrite Hcursor. intros Heq.
      assert (d = 0); [|lia].
      apply (mod_add_inj (_buffer_num self) (_matched_buffer_idx self)); [lia | lia |].
      by rewrite Z.add_0_r, (Z.mod_small (_matched_buffer_idx self)) by lia. }
    split; [|split].
    + exists (d + 1). rewrite EX, Hcursor, Z.add_mod_idemp_l by lia.
      split; [|f_equal; lia].
      assert (d + 1 ≠ _buffer_num self `div` 2); [|lia].
      intros Hflushnow. apply Hne. rewrite Hcursor, Z.add_mod_idemp_l by lia.
      f_equal. lia.
    + apply Hpend. unfold pending. rewrite Hflag by (done || lia). exact Hp.
    + exists len. rewrite ET, Hother by (done || lia). exact Hlen.
  - (* the match was found in this cycle *)
    rewrite Hidx in *.
    assert (_buffer_num self `div` 2 ≠ 1) as Hnot1.
    { intros Hone. apply Hne. by rewrite Hone. }
    assert (_buffer_num self `div` 2 ≠ 0) as Hnot0.
    { intros Hzero. apply Hne. rewrite Hzero, Z.add_0_r.
      assert (_buffer_num self = 1) as -> by (apply Z.div_small_iff in Hzero; lia).
      by rewrite !Z.mod_1_r. }
    split; [|split].
    + exists 1. split; [lia | done].
    + exact Hpending.
    + exists (nread result). rewrite Hset at 1 2. simpl. fold filled. exact Hmatch.
Qed.

Lemma cycles_anchored k self reader :
  wf self → anchored self → anchored (cycles k self reader).1.1.
Proof.
  revert self reader. induction k as [|k IH]; intros self reader Hwf Hanch; [done|].
  cbn [cycles]. pose proof (readFrom_wf self reader Hwf) as Hwf'.
  pose proof (readFrom_anchored self reader Hwf Hanch) as Hanch'.
  destruct (readFrom self reader) as [[[continue self'] reader'] out].
  specialize (IH self' reader' Hwf' Hanch').
  destruct (cycles k self' reader') as [[self'' reader''] outs]. done.
Qed.

End RunProperties.

(** ** RingBuffer: the window around a match *)

Section WindowProperties.
Import RingBuffer.
Context `{Reader R}.

Lemma fill_other_slots self reader i :
  wf self → 0 ≤ i → i ≠ _next_buffer_idx self →
  buffer_at (fill self reader).1.1 i = buffer_at self i ∧
  flag_at (fill self reader).1.1 i = flag_at self i.
Proof.
  intros (_ & _ & _ & _ & Hnext & _) Hi Hne. rewrite fill_eq.
  unfold buffer_at, flag_at. simpl.
  rewrite !list_lookup_total_insert_ne by lia. done.
Qed.

(** A cycle that read data: it flushes from the state the detection step
    left exactly when a match is tracked there and the cursor stands at the
    flush start, and the flush is not empty. *)
Lemma data_cycle self reader :
  wf self →
  0 < nread (fill self reader).1.2 →
  let tracked := (detect (fill self reader).1.1 (_next_buffer_idx self)
                    (nread (fill self reader).1.2) (tell (fill self reader).2)).1 in
  (0 ≤ _matched_buffer_idx tracked ∧ _next_buffer_idx tracked = flush_start tracked →
     (readFrom self reader).1.1.2 = (flush tracked).1 ∧
     collected (readFrom self reader).2 = (flush tracked).2 ∧
     (flush tracked).2 ≠ []) ∧
  (¬ (0 ≤ _matched_buffer_idx tracked ∧ _next_buffer_idx tracked = flush_start tracked) →
     (readFrom self reader).1.1.2 = tracked ∧
     collected (readFrom self reader).2 = []).
Proof.
  intros Hwf Hdata tracked.
  destruct (tracked_facts self reader Hwf) as (Htracked & EN & _ & _ & Hpending & _).
  fold tracked in Htracked, EN, Hpending.
  rewrite readFrom_eq. rewrite decide_False by lia. fold tracked.
  split.
  - intros [Hm Hready]. rewrite decide_True by done. cbn [fst snd collected].
    split; [done|]. split; [done|].
    pose proof Htracked as (HN & _).
    destruct (flush_start_range tracked HN Hm) as [_ Hrange].
    destruct (flush_calls tracked HN Hm) as [-> _].
    intros Hnil. apply fmap_nil_inv in Hnil.
    apply (filter_nil_not_elem_of _ _ (_next_buffer_idx self)) in Hnil; [|done].
    apply Hnil. apply window_order_elem; [done|].
    destruct Hwf as (_ & _ & _ & _ & ? & _). lia.
  - intros Hwait. rewrite decide_False by done. done.
Qed.

(** X6.  In every state a run from the constructor reaches with a match
    tracked, the cursor stands [d] slots past the matched slot with
    [1 <= d < N/2]: the matched slot is not the next one to be overwritten,
    and no match stays tracked from one cycle to the next when N < 4.  The
    next cycle, if it reads data, flushes exactly when [d + 1 = N/2]; that
    is, a match found in slot [m] is flushed by the cycle that fills slot
    [m + N/2 - 1], after [N/2 - 1] slots of trailing context.  Otherwise it
    keeps the match and moves the cursor to [d + 1]. *)
Theorem tracked_match_is_flushed_half_a_ring_later
    (garbage : Z → Z → char) (buffer_num buffer_size : Z) (target : Target.t)
    (start : t) (reader : R) (k : nat) :
  new garbage buffer_num buffer_size target = Some start →
  let '(self, reader', _) := cycles k start reader in
  let matched := _matched_buffer_idx self in
  0 ≤ matched →
  ∃ d, 1 ≤ d < buffer_num `quot` 2 ∧
       _next_buffer_idx self = (matched + d) `mod` buffer_num ∧
       _next_buffer_idx self ≠ matched ∧
       (0 < nread (read reader' buffer_size).1 →
        (collected (readFrom self reader').2 ≠ [] ↔ d + 1 = buffer_num `quot` 2) ∧
        (d + 1 ≠ buffer_num `quot` 2 →
         _matched_buffer_idx (readFrom self reader').1.1.2 = matched ∧
         _next_buffer_idx (readFrom self reader').1.1.2 =
           (matched + (d + 1)) `mod` buffer_num)).
Proof.
  intros Hnew.
  destruct (new_Some _ _ _ _ _ Hnew) as (Hwf0 & EN0 & ES0 & _).
  pose proof (cycles_wf k start reader Hwf0) as Hwf.
  pose proof (cycles_anchored k start reader Hwf0 (new_anchored _ _ _ _ _ Hnew)) as Hanch.
  destruct (cycles_same_shape k start reader) as (EN & ES & _);
    [by destruct Hwf0 as (_ & _ & ? & _)|].
  destruct (cycles k start reader) as [[self reader'] outs]. cbn [fst snd] in *.
  rewrite EN0 in EN. rewrite ES0 in ES.
  cbv beta iota zeta. intros Hm. destruct (Hanch Hm) as ((d & Hd & Hcursor) & Hp & _).
  set (matched := _matched_buffer_idx self) in *. rewrite EN in Hd, Hcursor.
  pose proof Hwf as (HN & _ & _ & _ & Hnext & Hmatched). rewrite EN in HN, Hnext, Hmatched.
  fold matched in Hmatched.
  assert (0 ≤ buffer_num `quot` 2 < buffer_num) as Hhalf.
  { rewrite Z.quot_div_nonneg by lia.
    split; [apply Z.div_pos; lia | apply Z.div_lt; lia]. }
  exists d. split; [done|]. split; [done|]. split.
  { rewrite Hcursor. intros Heq. assert (d = 0); [|lia].
    apply (mod_add_inj buffer_num matched); [lia | lia |].
    by rewrite Z.add_0_r, (Z.mod_small matched) by lia. }
  intros Hdata.
  destruct (fill_frame self reader') as (_ & _ & FM & _ & ER).
  rewrite ES in ER. rewrite <- ER in Hdata.
  destruct (tracked_facts self reader' Hwf) as (Htracked & TN & _ & TX & _).
  destruct (data_cycle self reader' Hwf Hdata) as [Hflush Hkeep]. cbv zeta in *.
  destruct (detect_matched (fill self reader').1.1 (_next_buffer_idx self)
              (nread (fill self reader').1.2) (tell (fill self reader').2))
    as [_ [Hkept | (Hidle & _)]]; [|lia].
  set (tracked := (detect _ _ _ _).1) in *.
  rewrite FM in Hkept. fold matched in Hkept.
  pose proof Htracked as (HN' & _).
  destruct (flush_start_range tracked HN') as [Hstart _]; [lia|].
  rewrite Hkept, TN, EN, <- Z.quot_div_nonneg in Hstart by lia.
  rewrite EN, Hcursor, Z.add_mod_idemp_l in TX by lia.
  assert (_next_buffer_idx tracked = flush_start tracked ↔ d + 1 = buffer_num `quot` 2)
    as Hready.
  { rewrite TX, Hstart. split.
    - intros Heq. apply (mod_add_inj buffer_num matched); [lia | lia |].
      rewrite <- Heq. f_equal. lia.
    - intros <-. f_equal. lia. }
  split.
  - split.
    + intros Hsome. apply Hready.
      destruct (decide (0 ≤ _matched_buffer_idx tracked ∧
                        _next_buffer_idx tracked = flush_start tracked)) as [[_ ?]|Hwait];
        [done|]. destruct (Hkeep Hwait) as [_ Hnil]. congruence.
    + intros Hnow. destruct Hflush as (_ & -> & Hsome); [|done].
      split; [lia | by apply Hready].
  - intros Hlater. destruct Hkeep as [-> _]; [rewrite Hready; tauto|].
    split; [done|]. rewrite TX. f_equal. lia.
Qed.

(** The flush of a state in which the matched slot is pending sends that
    slot, whole. *)
Lemma flush_sends_matched_slot self :
  wf self → 0 ≤ _matched_buffer_idx self → pending self (_matched_buffer_idx self) →
  Collect (_matched_buffer_idx self) (buffer_at self (_matched_buffer_idx self))
    ∈ (flush self).2.
Proof.
  intros Hwf Hm Hp. pose proof Hwf as (HN & _ & Hshape & _ & _ & Hmatched).
  destruct (flush_start_range self HN Hm) as [_ Hrange].
  destruct (flush_calls self HN Hm) as [-> _].
  apply list_elem_of_fmap. exists (_matched_buffer_idx self). split.
  - destruct (emit_whole_slot self (_matched_buffer_idx self) Hshape) as [-> _]; [lia | done].
  - apply list_elem_of_filter. split; [done|]. apply window_order_elem; [done | lia].
Qed.

Lemma flush_holds_match self reader :
  wf self → anchored self →
  collected (readFrom self reader).2 ≠ [] →
  ∃ c len, c ∈ collected (readFrom self reader).2 ∧
           Target.match_ (_target self) (data c) len = true.
Proof.
  intros Hwf Hanch.
  destruct (tracked_facts self reader Hwf)
    as (Htracked & EN & ES & EX & Hpending & Hpend & Hbuf & Hflag).
  destruct (fill_wf self reader Hwf) as (Hfilled & _ & _).
  destruct (fill_frame self reader) as (FN & FS & FM & FT & _).
  assert (0 ≤ _matched_buffer_idx self →
          pending (fill self reader).1.1 (_matched_buffer_idx self) ∧
          ∃ len, Target.match_ (_target self)
                   (buffer_at (fill self reader).1.1 (_matched_buffer_idx self)) len = true)
    as Hkeeps.
  { intros Hm. destruct (Hanch Hm) as ((d & Hd & Hcursor) & Hp & (len & Hlen)).
    pose proof Hwf as (HN & _ & _ & _ & _ & Hmatched).
    assert (0 ≤ _buffer_num self `quot` 2 < _buffer_num self) as Hhalf.
    { rewrite Z.quot_div_nonneg by lia.
      split; [apply Z.div_pos; lia | apply Z.div_lt; lia]. }
    assert (_matched_buffer_idx self ≠ _next_buffer_idx self) as Hsel.
    { rewrite Hcursor. intros Heq. assert (d = 0); [|lia].
      apply (mod_add_inj (_buffer_num self) (_matched_buffer_idx self)); [lia | lia |].
      by rewrite Z.add_0_r, (Z.mod_small (_matched_buffer_idx self)) by lia. }
    destruct (fill_other_slots self reader (_matched_buffer_idx self) Hwf Hm Hsel)
      as [-> Hf].
    split; [unfold pending; by rewrite Hf | eauto]. }
  rewrite readFrom_eq.
  set (filled := (fill self reader).1.1) in *.
  set (result := (fill self reader).1.2) in *.
  set (reader' := (fill self reader).2) in *.
  destruct (detect_matched filled (_next_buffer_idx self) (nread result) (tell reader'))
    as [Hset Hdetect].
  set (tracked := (detect _ _ _ _).1) in *.
  destruct (decide (nread result ≤ 0)) as [Heof|Hdata].
  { destruct (decide (0 ≤ _matched_buffer_idx filled)) as [Hm|Hm];
      cbn [snd collected]; [|done]. intros _.
    rewrite FM in Hm. destruct (Hkeeps Hm) as [Hp (len & Hlen)].
    exists (Collect (_matched_buffer_idx filled)
              (buffer_at filled (_matched_buffer_idx filled))), len.
    split; [apply flush_sends_matched_slot; rewrite ?FM; done|].
    simpl. by rewrite FM. }
  destruct (decide (0 ≤ _matched_buffer_idx tracked ∧
                    _next_buffer_idx tracked = flush_start tracked)) as [[Hm Hready]|Hwait];
    cbn [snd collected]; [|done]. intros _.
  assert (pending tracked (_matched_buffer_idx tracked) ∧
          ∃ len, Target.match_ (_target self)
                   (buffer_at tracked (_matched_buffer_idx tracked)) len = true)
    as [Hp (len & Hlen)].
  { destruct Hdetect as [Hkept | (Hidle & Hidx & Hmatch & _)].
    - rewrite Hkept, FM in *. destruct (Hkeeps Hm) as [Hp Hlen].
      split; [by apply Hpend | by rewrite Hbuf].
    - rewrite Hidx. split; [done|]. exists (nread result).
      by rewrite Hbuf, <- FT. }
  exists (Collect (_matched_buffer_idx tracked)
            (buffer_at tracked (_matched_buffer_idx tracked))), len.
  split; [by apply flush_sends_matched_slot | done].
Qed.

Lemma cycles_flush_holds_match k self reader :
  wf self → anchored self →
  ∀ out, out ∈ (cycles k self reader).2 → collected out ≠ [] →
  ∃ c pattern,
    c ∈ collected out ∧ pattern ∈ Target._targets (_target self) ∧
    occurs pattern (data c).
Proof.
  revert self reader. induction k as [|k IH]; intros self reader Hwf Hanch out.
  - intros Hin. by apply elem_of_nil in Hin.
  - cbn [cycles].
    pose proof (flush_holds_match self reader Hwf Hanch) as Hhold.
    pose proof (readFrom_wf self reader Hwf) as Hwf'.
    pose proof (readFrom_anchored self reader Hwf Hanch) as Hanch'.
    pose proof (readFrom_buffers self reader Hwf) as [ET _].
    destruct (readFrom self reader) as [[[continue self'] reader'] out0].
    cbn [fst snd] in *. specialize (IH self' reader' Hwf' Hanch' out).
    destruct (cycles k self' reader') as [[self'' reader''] outs]. cbn [fst snd] in *.
    intros Hin Hsome. apply elem_of_cons in Hin as [->|Hin].
    + destruct (Hhold Hsome) as (c & len & Hc & Hmatch).
      apply match_loop_true in Hmatch as (pattern & Hp & Hocc).
      exists c, pattern. split; [done|]. split; [done|]. by eapply occurs_take.
    + rewrite ET in IH. by apply IH.
Qed.

(** X7.  Every flush of a run from the constructor, the forced one at the
    end of the stream included, sends the slot in which the match was found,
    with its content intact: among the calls of a cycle that calls the sink
    at all there is one whose bytes hold an occurrence of a registered
    pattern. *)
Theorem every_flush_holds_an_occurrence
    (garbage : Z → Z → char) (buffer_num buffer_size : Z) (target : Target.t)
    (start : t) (reader : R) (k : nat) :
  new garbage buffer_num buffer_size target = Some start →
  ∀ out, out ∈ (cycles k start reader).2 → collected out ≠ [] →
  ∃ c pattern,
    c ∈ collected out ∧ pattern ∈ Target._targets target ∧ occurs pattern (data c).
Proof.
  intros Hnew.
  destruct (new_Some _ _ _ _ _ Hnew) as (Hwf & _ & _ & _ & _ & ET & _).
  pose proof (new_anchored _ _ _ _ _ Hnew) as Hanch.
  rewrite <- ET. by apply cycles_flush_holds_match.
Qed.

End WindowProperties.

(** ** RingBuffer: the order of what is sent *)

Section OrderProperties.
Import RingBuffer.
Context `{Reader R}.

(** The order of the ring from the slot after [s] is the order from [s]
    with [s] moved to the end. *)
Lemma window_order_rotate num s :
  0 ≤ s < num →
  ∃ later,
    window_order num s = s :: later ∧
    window_order num ((s + 1) `mod` num) = later ++ [s].
Proof.
  intros Hs. exists (seqZ (s + 1) (num - s - 1) ++ seqZ 0 s). unfold window_order.
  assert (seqZ 0 (s + 1) = seqZ 0 s ++ [s]) as Hsnoc.
  { rewrite (seqZ_app 0 s 1) by lia. rewrite Z.add_0_l.
    rewrite (seqZ_cons s 1) by lia. by rewrite (seqZ_nil (Z.succ s)) by lia. }
  split.
  - rewrite (seqZ_cons s) by lia.
    replace (Z.succ s) with (s + 1) by lia.
    replace (Z.pred (num - s)) with (num - s - 1) by lia. done.
  - destruct (decide (s + 1 < num)) as [Hlt|Hge].
    + rewrite Z.mod_small by lia.
      replace (num - (s + 1)) with (num - s - 1) by lia.
      by rewrite Hsnoc, app_assoc.
    + assert (num = s + 1) as -> by lia.
      rewrite Z.mod_same by lia.
      rewrite (seqZ_nil (s + 1)) by lia. rewrite (seqZ_nil 0 0) by lia.
      by rewrite Z.sub_0_r, app_nil_r, app_nil_l.
Qed.

Lemma filter_none {A} (P : A → Prop) `{!∀ x, Decision (P x)} (l : list A) :
  (∀ x, x ∈ l → ¬ P x) → filter P l = [].
Proof.
  induction l as [|x l IH]; intros Hnone; [done|].
  rewrite filter_cons_False by (apply Hnone; left).
  apply IH. intros y Hy. apply Hnone. by right.
Qed.

(** Filling the slot at the cursor drops the oldest entry of the backlog,
    if that slot was pending, and puts the new content at its end. *)
Lemma backlog_fill self reader :
  wf self →
  let filled := (fill self reader).1.1 in
  backlog filled `sublist_of`
    backlog self ++ [buffer_at filled (_next_buffer_idx self)].
Proof.
  intros Hwf. cbv zeta.
  destruct (fill_wf self reader Hwf) as (_ & Hnext' & Hpending).
  destruct (fill_frame self reader) as (FN & _).
  pose proof Hwf as (HN & _ & _ & _ & Hnext & _).
  destruct (window_order_rotate (_buffer_num self) (_next_buffer_idx self) Hnext)
    as (later & Hnow & Hthen).
  assert (∀ i, i ∈ later → 0 ≤ i ∧ i ≠ _next_buffer_idx self) as Hlater.
  { intros i Hi. split.
    - assert (i ∈ window_order (_buffer_num self) (_next_buffer_idx self)) as Hin
        by (rewrite Hnow; by right).
      apply window_order_elem in Hin; lia.
    - pose proof (window_order_NoDup (_buffer_num self) (_next_buffer_idx self) Hnext) as Hnd.
      rewrite Hnow in Hnd. apply NoDup_cons in Hnd as [Hnotin _]. congruence. }
  unfold backlog. rewrite Hnext', FN, Hnow, Hthen.
  rewrite filter_app, fmap_app.
  rewrite (filter_cons_True _ (_next_buffer_idx self) []) by done.
  rewrite filter_nil, (filter_cons (pending self)). simpl.
  assert (buffer_at (fill self reader).1.1 <$> filter (pending (fill self reader).1.1) later =
          buffer_at self <$> filter (pending self) later) as ->.
  { rewrite (filter_agree (pending (fill self reader).1.1) (pending self)).
    - apply Forall_fmap_ext, Forall_forall. intros i Hi.
      apply list_elem_of_filter in Hi as [_ Hi]. destruct (Hlater i Hi).
      by apply fill_other_slots.
    - intros i Hi. destruct (Hlater i Hi). unfold pending.
      by destruct (fill_other_slots self reader i) as [_ ->]. }
  destruct (decide (pending self (_next_buffer_idx self))); simpl.
  - by apply sublist_cons.
  - done.
Qed.

(** In a cycle that read data, what is sent and what stays pending is,
    together and in this order, the backlog after the fill. *)
Lemma data_cycle_backlog self reader :
  wf self →
  0 < nread (fill self reader).1.2 →
  (data <$> collected (readFrom self reader).2) ++ backlog (readFrom self reader).1.1.2 =
  backlog (fill self reader).1.1.
Proof.
  intros Hwf Hdata.
  destruct (tracked_facts self reader Hwf) as (Htracked & EN & _ & _ & _ & Hpend & Hbuf & _).
  destruct (data_cycle self reader Hwf Hdata) as [Hflush Hkeep]. cbv zeta in *.
  destruct (detect_frame (fill self reader).1.1 (_next_buffer_idx self)
              (nread (fill self reader).1.2) (tell (fill self reader).2))
    as (_ & DN & _ & DX & _).
  set (filled := (fill self reader).1.1) in *.
  set (tracked := (detect _ _ _ _).1) in *.
  assert (backlog tracked = backlog filled) as Hsame.
  { unfold backlog. rewrite DN, DX.
    rewrite (filter_agree (pending tracked) (pending filled)) by (intros; apply Hpend).
    apply Forall_fmap_ext, Forall_forall. intros i _. apply Hbuf. }
  destruct (decide (0 ≤ _matched_buffer_idx tracked ∧
                    _next_buffer_idx tracked = flush_start tracked)) as [Hready|Hwait].
  - destruct (Hflush Hready) as (-> & -> & _). destruct Hready as [Hm Hready].
    pose proof Htracked as (HN & _ & Hshape & _).
    destruct (flush_start_range tracked HN Hm) as [_ Hrange].
    destruct (flush_calls tracked HN Hm) as [-> _].
    destruct (flush_wf tracked Htracked Hm) as (Hwf' & _ & Hnone).
    assert (backlog (flush tracked).1 = []) as ->.
    { unfold backlog. rewrite filter_none; [done|]. intros i Hi.
      pose proof Hwf' as (_ & _ & _ & _ & Hnext' & _).
      apply window_order_elem in Hi; [|done].
      apply Hnone.
      assert (_buffer_num (flush tracked).1 = _buffer_num tracked) as <-; [|done].
      unfold flush. destruct (collectTo_frame tracked (flush_start tracked)) as (_ & ? & _).
      by destruct (collectTo tracked (flush_start tracked)). }
    rewrite app_nil_r, <- Hsame. unfold backlog. rewrite Hready.
    rewrite <- list_fmap_compose.
    apply Forall_fmap_ext, Forall_forall. intros i Hi.
    apply list_elem_of_filter in Hi as [_ Hi]. apply window_order_elem in Hi; [|done].
    unfold compose. by destruct (emit_whole_slot tracked i Hshape Hi) as [-> _].
  - destruct (Hkeep Hwait) as [-> ->]. by rewrite Hsame.
Qed.

Lemma cycles_backlog k self reader :
  wf self →
  Forall (λ x, 0 < nread x.1) (fills k self reader) →
  (data <$> all_collected (cycles k self reader).2) ++ backlog (cycles k self reader).1.1
  `sublist_of` backlog self ++ (snd <$> fills k self reader).
Proof.
  revert self reader. induction k as [|k IH]; intros self reader Hwf Hdata.
  - cbn [cycles fills fst snd]. simpl. by rewrite app_nil_r.
  - cbn [cycles fills] in *.
    pose proof (backlog_fill self reader Hwf) as Hfill. cbv zeta in Hfill.
    pose proof (data_cycle_backlog self reader Hwf) as Hcycle.
    pose proof (readFrom_wf self reader Hwf) as Hwf'.
    destruct (fill self reader) as [[filled result] reader0].
    destruct (readFrom self reader) as [[[continue self'] reader'] out].
    cbn [fst snd] in *. apply Forall_cons in Hdata as [Hfirst Hrest].
    specialize (IH self' reader' Hwf' Hrest). specialize (Hcycle Hfirst).
    destruct (cycles k self' reader') as [[self'' reader''] outs]. cbn [fst snd] in *.
    rewrite all_collected_cons, fmap_app, fmap_cons, <- app_assoc.
    etrans; [apply sublist_app; [reflexivity | exact IH]|].
    rewrite app_assoc, Hcycle.
    rewrite (cons_middle _ (backlog self)), app_assoc.
    apply sublist_app; [exact Hfill | reflexivity].
Qed.

Lemma fills_full k self reader :
  wf self →
  Forall (λ x, Z.of_nat (length (stored x.1)) = _buffer_size self → x.2 = stored x.1)
         (fills k self reader).
Proof.
  revert self reader. induction k as [|k IH]; intros self reader Hwf; [constructor|].
  cbn [fills].
  pose proof (readFrom_wf self reader Hwf) as Hwf'.
  destruct (readFrom_same_shape self reader) as (_ & ES & _); [by destruct Hwf as (_&_&?&_)|].
  assert (Z.of_nat (length (stored (fill self reader).1.2)) = _buffer_size self →
          buffer_at (fill self reader).1.1 (_next_buffer_idx self) =
          stored (fill self reader).1.2) as Hfull.
  { intros Hlen. rewrite fill_eq. unfold buffer_at. simpl.
    pose proof Hwf as (_ & _ & (Hbuf & Hslots & _) & _ & Hnext & _).
    assert (Z.to_nat (_next_buffer_idx self) < length (_buffer self))%nat as Hlt by lia.
    rewrite list_lookup_total_insert_eq by done.
    destruct (lookup_lt_is_Some_2 _ _ Hlt) as [old Hold].
    rewrite (list_lookup_total_correct _ _ _ Hold).
    rewrite Forall_lookup in Hslots. specialize (Hslots _ _ Hold).
    apply store_full. rewrite fill_eq in Hlen. simpl in Hlen. lia. }
  destruct (fill self reader) as [[filled result] reader0].
  destruct (readFrom self reader) as [[[continue self'] reader'] out].
  cbn [fst snd] in *. constructor; [done|]. rewrite <- ES. by apply IH.
Qed.

(** X8.  Over read cycles that all read data, starting with no slot
    pending (as after construction or after a flush), the sink receives
    slot contents in the order in which the slots were filled and each
    filling at most once: the sequence of the bytes passed to the sink is a
    sub-sequence of the sequence of slot contents the reads left.  A read
    that fills its slot leaves exactly the bytes it stored, so with full
    reads the sink receives chunks of the source, in source order, none
    twice. *)
Theorem sink_receives_fills_in_order_at_most_once (self : t) (reader : R) (k : nat) :
  wf self →
  (∀ i, 0 ≤ i < _buffer_num self → ¬ pending self i) →
  Forall (λ x, 0 < nread x.1) (fills k self reader) →
  data <$> all_collected (cycles k self reader).2
    `sublist_of` (snd <$> fills k self reader) ∧
  Forall (λ x, Z.of_nat (length (stored x.1)) = _buffer_size self → x.2 = stored x.1)
         (fills k self reader).
Proof.
  intros Hwf Hnone Hdata. split; [|by apply fills_full].
  pose proof (cycles_backlog k self reader Hwf Hdata) as Hsub.
  assert (backlog self = []) as Hempty.
  { unfold backlog. rewrite filter_none; [done|]. intros i Hi.
    apply Hnone. apply window_order_elem in Hi; [done|].
    by destruct Hwf as (_ & _ & _ & _ & ? & _). }
  rewrite Hempty, app_nil_l in Hsub.
  etrans; [|exact Hsub]. apply sublist_inserts_r. reflexivity.
Qed.

Lemma idle_cycle_without_occurrence self reader :
  wf self → _matched_buffer_idx self < 0 →
  (∀ pattern, pattern ∈ Target._targets (_target self) →
     ¬ occurs pattern (take (Z.to_nat (nread (fill self reader).1.2))
                         (buffer_at (fill self reader).1.1 (_next_buffer_idx self)))) →
  collected (readFrom self reader).2 = [] ∧
  _matched_buffer_idx (readFrom self reader).1.1.2 = -1 ∧
  (∀ pos, Matched pos ∉ logged (readFrom self reader).2).
Proof.
  intros Hwf Hidle Hmiss.
  destruct (fill_frame self reader) as (_ & _ & FM & FT & _).
  assert (_matched_buffer_idx self = -1) as Hminus
    by (destruct Hwf as (_ & _ & _ & _ & _ & [?|?]); lia).
  assert (∀ pos, Matched pos ∉ progress (tell (fill self reader).2)) as Hprogress.
  { intros pos. unfold progress. case_decide; [|apply not_elem_of_nil].
    intros Hin. apply list_elem_of_singleton in Hin. done. }
  assert (detect (fill self reader).1.1 (_next_buffer_idx self)
            (nread (fill self reader).1.2) (tell (fill self reader).2) =
          ((fill self reader).1.1, [])) as Hdetect.
  { unfold detect.
    destruct (Target.match_ _ _ _) eqn:Hmatch; [|by rewrite andb_false_r].
    exfalso. apply match_loop_true in Hmatch as (pattern & Hin & Hocc).
    rewrite FT in Hin. by apply (Hmiss pattern). }
  rewrite readFrom_eq. rewrite Hdetect. cbn [fst snd].
  rewrite !(decide_False (P := 0 ≤ _matched_buffer_idx (fill self reader).1.1 ∧ _))
    by (intros [? _]; lia).
  rewrite (decide_False (P := 0 ≤ _matched_buffer_idx (fill self reader).1.1)) by lia.
  case_decide; cbn [fst snd collected logged]; rewrite ?app_nil_r;
    (split; [done|]); (split; [lia | done]).
Qed.

(** X9.  Matching is per slot.  From a state with no match tracked, as long
    as no registered pattern occurs within the bytes a single read returned
    (the first [n] bytes of the slot it filled), no cycle sends anything,
    writes a "matched" line or starts tracking; this holds in particular
    when no pattern is registered, and for a pattern that does occur in the
    source but only across the boundary of two reads. *)
Theorem no_occurrence_inside_a_read_no_output (self : t) (reader : R) (k : nat) :
  wf self →
  _matched_buffer_idx self < 0 →
  Forall (λ x, ∀ pattern, pattern ∈ Target._targets (_target self) →
                 ¬ occurs pattern (take (Z.to_nat (nread x.1)) x.2))
         (fills k self reader) →
  all_collected (cycles k self reader).2 = [] ∧
  _matched_buffer_idx (cycles k self reader).1.1 < 0 ∧
  Forall (λ out, ∀ pos, Matched pos ∉ logged out) (cycles k self reader).2.
Proof.
  revert self reader. induction k as [|k IH]; intros self reader Hwf Hidle Hmiss.
  - cbn [cycles fst snd]. split; [done|]. split; [done | constructor].
  - cbn [cycles fills] in *.
    pose proof (idle_cycle_without_occurrence self reader Hwf Hidle) as Hcycle.
    pose proof (readFrom_wf self reader Hwf) as Hwf'.
    pose proof (readFrom_buffers self reader Hwf) as [ET _].
    destruct (fill self reader) as [[filled result] reader0].
    destruct (readFrom self reader) as [[[continue self'] reader'] out].
    cbn [fst snd] in *. apply Forall_cons in Hmiss as [Hfirst Hrest].
    destruct (Hcycle Hfirst) as (Hnone & Hminus & Hlog).
    rewrite <- ET in Hrest.
    destruct (IH self' reader' Hwf' ltac:(lia) Hrest) as (Hnone' & Hidle' & Hlog').
    destruct (cycles k self' reader') as [[self'' reader''] outs]. cbn [fst snd] in *.
    rewrite all_collected_cons, Hnone, Hnone'. split; [done|]. split; [done|].
    by constructor.
Qed.

End OrderProperties.

(** ** StreamReader and the loop over a stream *)

Section StreamProperties.
Import RingBuffer.

Lemma stream_read_full (reader : StreamReader.t) (size : Z) :
  good reader → 0 < size → size ≤ Z.of_nat (length (StreamReader.rest reader)) →
  read reader size =
  (ReadResult size (take (Z.to_nat size) (StreamReader.rest reader)),
   StreamReader.Build (drop (Z.to_nat size) (StreamReader.rest reader))
     (StreamReader.gpos reader + size) false false).
Proof.
  intros [Heof Hfail] Hsize Hlen. cbn [read StreamReader_Reader].
  unfold StreamReader.read. rewrite Heof, Hfail.
  rewrite length_take, Nat.min_l by lia. rewrite Z2Nat.id by lia.
  rewrite bool_decide_eq_false_2 by lia. done.
Qed.

Lemma stream_read_short (reader : StreamReader.t) (size : Z) :
  good reader → Z.of_nat (length (StreamReader.rest reader)) < size →
  read reader size =
  (ReadResult (Z.of_nat (length (StreamReader.rest reader))) (StreamReader.rest reader),
   StreamReader.Build []
     (StreamReader.gpos reader + Z.of_nat (length (StreamReader.rest reader))) true true).
Proof.
  intros [Heof Hfail] Hlen. cbn [read StreamReader_Reader].
  unfold StreamReader.read. rewrite Heof, Hfail.
  rewrite take_ge, drop_ge by lia.
  rewrite bool_decide_eq_true_2 by lia. done.
Qed.

Lemma stream_read_eof (reader : StreamReader.t) (size : Z) :
  StreamReader.eofbit reader = true →
  read reader size = (ReadResult (-1) [], reader).
Proof.
  intros Heof. cbn [read StreamReader_Reader]. unfold StreamReader.read. by rewrite Heof.
Qed.






(** *** The loop ends *)

Lemma readFrom_continue `{Reader R} (self : t) (reader : R) :
  (readFrom self reader).1.1.1 = bool_decide (0 < nread (read reader (_buffer_size self)).1) ∧
  (readFrom self reader).1.2 = (read reader (_buffer_size self)).2 ∧
  _buffer_size (readFrom self reader).1.1.2 = _buffer_size self.
Proof.
  destruct (fill_frame self reader) as (_ & FS & _ & _ & ER).
  assert ((fill self reader).2 = (read reader (_buffer_size self)).2) as ER'
    by (by rewrite fill_eq).
  rewrite readFrom_eq. rewrite <- ER, <- ER'.
  destruct (detect_frame (fill self reader).1.1 (_next_buffer_idx self)
              (nread (fill self reader).1.2) (tell (fill self reader).2))
    as (_ & _ & DS & _).
  assert (∀ s, _buffer_size (flush s).1 = _buffer_size s) as Hflush.
  { intros s. unfold flush. destruct (collectTo_frame s (flush_start s)) as (_ & _ & ? & _).
    by destruct (collectTo s (flush_start s)). }
  repeat case_decide; cbn [fst snd]; rewrite ?Hflush, ?DS, ?FS;
    (split; [|done]); symmetry;
    (apply bool_decide_eq_false_2 || apply bool_decide_eq_true_2); lia.
Qed.

Lemma scan_fuel_mono `{Reader R} (fuel fuel' : nat) (self : t) (reader : R) result :
  scan fuel self reader = Some result → (fuel ≤ fuel')%nat →
  scan fuel' self reader = Some result.
Proof.
  revert fuel' self reader result.
  induction fuel as [|fuel IH]; intros fuel' self reader result; [done|].
  intros Hscan Hle. destruct fuel' as [|fuel']; [lia|].
  cbn [scan] in *. destruct (readFrom self reader) as [[[continue self'] reader'] out].
  destruct continue; [|done].
  destruct (scan fuel self' reader') as [r|] eqn:Hrest; [|done].
  rewrite (IH fuel' self' reader' r Hrest) by lia. done.
Qed.

Lemma stream_cycles_full (size : Z) (len : nat) :
  0 < size → size ≤ Z.of_nat len →
  stream_cycles size len = S (stream_cycles size (len - Z.to_nat size)).
Proof.
  intros Hsize Hlen. unfold stream_cycles.
  replace (Z.of_nat (len - Z.to_nat size)) with (Z.of_nat len - size) by lia.
  assert (Z.of_nat len `div` size = (Z.of_nat len - size) `div` size + 1) as ->.
  { replace (Z.of_nat len) with ((Z.of_nat len - size) + 1 * size) at 1 by lia.
    apply Z.div_add. lia. }
  assert (Z.of_nat len `mod` size = (Z.of_nat len - size) `mod` size) as ->.
  { replace (Z.of_nat len) with ((Z.of_nat len - size) + 1 * size) at 1 by lia.
    apply Z.mod_add. lia. }
  assert (0 ≤ (Z.of_nat len - size) `div` size) by (apply Z.div_pos; lia).
  case_decide; lia.
Qed.

Lemma stream_cycles_short (size : Z) (len : nat) :
  Z.of_nat len < size →
  stream_cycles size len = if decide (len = 0%nat) then 1%nat else 2%nat.
Proof.
  intros Hlen. unfold stream_cycles.
  rewrite Z.div_small, Z.mod_small by lia.
  repeat case_decide; lia.
Qed.

Lemma stream_scan (fuel : nat) (self : t) (reader : StreamReader.t) :
  good reader → 0 < _buffer_size self →
  let count := stream_cycles (_buffer_size self) (length (StreamReader.rest reader)) in
  ((count ≤ fuel)%nat →
     ∃ self' reader' outs,
       scan fuel self reader = Some (self', reader', outs) ∧ length outs = count) ∧
  ((fuel < count)%nat → scan fuel self reader = None).
Proof.
  revert self reader. induction fuel as [|fuel IH]; intros self reader Hgood Hsize count.
  - split; [|done]. intros Hle. exfalso. subst count. unfold stream_cycles in Hle.
    case_decide; lia.
  - cbn [scan].
    destruct (readFrom_continue self reader) as (Hcont & Hreader & ES).
    destruct (readFrom self reader) as [[[continue self'] reader'] out].
    cbn [fst snd] in *. subst continue reader'.
    destruct (decide (_buffer_size self ≤ Z.of_nat (length (StreamReader.rest reader))))
      as [Hfull|Hshort].
    + rewrite (stream_read_full reader _ Hgood Hsize Hfull). cbn [fst snd nread].
      rewrite bool_decide_eq_true_2 by lia.
      subst count. rewrite stream_cycles_full by done.
      set (reader1 := StreamReader.Build _ _ false false).
      assert (good reader1) as Hgood1 by done.
      destruct (IH self' reader1 Hgood1) as [Hends Hnot]; [lia|].
      rewrite ES in Hends, Hnot. subst reader1. cbn [StreamReader.rest] in Hends, Hnot.
      rewrite length_drop in Hends, Hnot. split.
      * intros Hle. destruct Hends as (s & r & outs & -> & Hlen); [lia|].
        simpl. eexists _, _, _. split; [done|]. simpl. by rewrite Hlen.
      * intros Hlt. rewrite Hnot by lia. done.
    + rewrite (stream_read_short reader _ Hgood) by lia. cbn [fst snd nread].
      subst count. rewrite stream_cycles_short by lia.
      destruct (decide (length (StreamReader.rest reader) = 0%nat)) as [Hempty|Hsome].
      * rewrite bool_decide_eq_false_2 by lia. split; [|lia].
        intros _. eexists _, _, _. split; [done|]. done.
      * rewrite bool_decide_eq_true_2 by lia.
        destruct fuel as [|fuel]; [split; [lia | done]|].
        split; [|lia]. intros _. cbn [scan].
        destruct (readFrom_continue self'
                    (StreamReader.Build []
                       (StreamReader.gpos reader +
                        Z.of_nat (length (StreamReader.rest reader))) true true))
          as (Hcont & _).
        rewrite stream_read_eof in Hcont by done. cbn [fst nread] in Hcont.
        rewrite bool_decide_eq_false_2 in Hcont by lia.
        destruct (readFrom self' _) as [[[continue self''] reader''] out'].
        cbn [fst] in Hcont. subst continue.
        eexists _, _, _. split; [done|]. done.
Qed.

(** X11.  The loop [while (buffer.readFrom(&reader, &collector))] over a
    [StreamReader] ends, whatever the stream holds and whatever the state of
    the buffer: over a stream of [L] bytes read [S] bytes at a time it makes
    exactly [L/S + 1] read cycles when [S] divides [L] and [L/S + 2]
    otherwise, no fewer and no more. *)
Theorem loop_over_a_stream_ends (self : t) (input : bytes) (fuel : nat) :
  0 < _buffer_size self →
  let count := stream_cycles (_buffer_size self) (length input) in
  ((count ≤ fuel)%nat →
     ∃ self' reader' outs,
       scan fuel self (StreamReader.new input) = Some (self', reader', outs) ∧
       length outs = count) ∧
  ((fuel < count)%nat → scan fuel self (StreamReader.new input) = None).
Proof.
  intros Hsize.
  exact (stream_scan fuel self (StreamReader.new input) (conj eq_refl eq_refl) Hsize).
Qed.

(** *** The "matched" line *)

Lemma matched_line `{Reader R} (self : t) (reader : R) (pos : Z) :
  Matched pos ∈ logged (readFrom self reader).2 →
  pos = tell (read reader (_buffer_size self)).2 ∧
  0 < nread (read reader (_buffer_size self)).1 ∧
  _matched_buffer_idx self < 0.
Proof.
  destruct (fill_frame self reader) as (_ & _ & FM & _ & ER).
  assert ((fill self reader).2 = (read reader (_buffer_size self)).2) as ER'
    by (by rewrite fill_eq).
  assert (∀ l, Matched pos ∈ progress (tell (fill self reader).2) ++ l → Matched pos ∈ l)
    as Hprogress.
  { intros l Hin. apply elem_of_app in Hin as [Hin|Hin]; [|done].
    unfold progress in Hin. case_decide; [|by apply elem_of_nil in Hin].
    apply list_elem_of_singleton in Hin. done. }
  assert (Matched pos ∈ (detect (fill self reader).1.1 (_next_buffer_idx self)
                           (nread (fill self reader).1.2) (tell (fill self reader).2)).2 →
          pos = tell (fill self reader).2 ∧ _matched_buffer_idx self < 0) as Hdetect.
  { unfold detect.
    destruct (bool_decide (_matched_buffer_idx (fill self reader).1.1 < 0)) eqn:Hidle;
      [|simpl; intros Hin; by apply elem_of_nil in Hin].
    apply bool_decide_eq_true in Hidle. rewrite FM in Hidle.
    destruct (Target.match_ _ _ _); simpl; intros Hin; [|by apply elem_of_nil in Hin].
    apply list_elem_of_singleton in Hin. injection Hin as ->. done. }
  rewrite readFrom_eq. rewrite <- ER, <- ER'.
  repeat case_decide; cbn [snd logged]; intros Hin.
  1,2: exfalso; rewrite <- (app_nil_r (progress _)) in Hin;
       apply Hprogress in Hin; by apply elem_of_nil in Hin.
  all: apply Hprogress, Hdetect in Hin as [-> ?]; split; [done|]; split; [lia | done].
Qed.

(** X12.  The "matched" line written when a match is registered reports
    [tell()] after the read, not the place of the occurrence: over a
    [StreamReader] it is the offset of the end of the chunk in which the
    pattern was found, and [2^64 - 1] when that chunk is the short last one,
    because the read that came short has put the stream in the failed
    state. *)
Theorem matched_line_reports_the_end_of_the_chunk
    (self : t) (reader : StreamReader.t) (pos : Z) :
  good reader →
  0 < _buffer_size self →
  Matched pos ∈ logged (readFrom self reader).2 →
  pos = if decide (Z.of_nat (length (StreamReader.rest reader)) < _buffer_size self)
        then 2 ^ 64 - 1
        else StreamReader.gpos reader + _buffer_size self.
Proof.
  intros Hgood Hsize Hin. apply matched_line in Hin as (-> & _ & _).
  case_decide as Hshort.
  - by rewrite (stream_read_short reader _ Hgood Hshort).
  - by rewrite (stream_read_full reader _ Hgood Hsize) by lia.
Qed.

End StreamProperties.

(** ** The size of a flush *)

Section FlushBound.
Import RingBuffer.
Context `{Reader R}.

(** X13.  One read cycle calls the sink at most N times and never twice for
    the same slot, so a flush sends at most N×S bytes. *)
Theorem flush_sends_at_most_the_ring (self : t) (reader : R) :
  wf self →
  let calls := collected (readFrom self reader).2 in
  NoDup (slot <$> calls) ∧
  Z.of_nat (length calls) ≤ _buffer_num self ∧
  Z.of_nat (length (written calls)) ≤ _buffer_num self * _buffer_size self.
Proof.
  intros Hwf calls.
  pose proof (readFrom_calls_whole self reader Hwf) as Hwhole. fold calls in Hwhole.
  assert (NoDup (slot <$> calls) ∧ (length calls ≤ Z.to_nat (_buffer_num self))%nat)
    as [Hnodup Hcount].
  { subst calls. clear Hwhole.
    destruct (tracked_facts self reader Hwf) as (Htracked & EN & _).
    destruct (fill_wf self reader Hwf) as (Hfilled & _ & _).
    destruct (fill_frame self reader) as (FN & _).
    rewrite readFrom_eq.
    assert (∀ s, wf s → _buffer_num s = _buffer_num self → 0 ≤ _matched_buffer_idx s →
                 NoDup (slot <$> (flush s).2) ∧
                 (length (flush s).2 ≤ Z.to_nat (_buffer_num self))%nat) as Hflush.
    { intros s Hs HN Hm. pose proof Hs as (HN' & _).
      destruct (flush_start_range s HN' Hm) as [_ Hrange].
      destruct (flush_calls s HN' Hm) as [Hcalls Hnd]. split; [done|].
      rewrite Hcalls, length_fmap.
      etrans; [apply length_filter|]. rewrite window_order_length by done. lia. }
    repeat case_decide; cbn [snd collected];
      try (split; [constructor | simpl; lia]).
    - by apply Hflush.
    - apply Hflush; tauto. }
  split; [done|]. pose proof Hwf as (HN & HS & _). split; [lia|].
  rewrite (written_length calls (Z.to_nat (_buffer_size self))).
  - nia.
  - eapply Forall_impl; [exact Hwhole|]. by intros c [? _].
Qed.

End FlushBound.

(** ** FileReader *)

Section FileReaderProperties.
Context {K : Type}.
Variable sys_open : K → bytes → Z * K.
Variable sys_read : K → Z → Z → read_result * K.

Lemma file_reads k (reader : FileReader.t) (size : Z) :
  let results := (@reads _ (FileReader_Reader sys_read) k reader size).1 in
  let reader' := (@reads _ (FileReader_Reader sys_read) k reader size).2 in
  FileReader._fd reader' = FileReader._fd reader ∧
  FileReader._pos reader' `mod` 2 ^ 64 =
    (FileReader._pos reader + returned results) `mod` 2 ^ 64 ∧
  (0 ≤ FileReader._pos reader < 2 ^ 64 → 0 ≤ FileReader._pos reader' < 2 ^ 64).
Proof.
  cbv zeta. revert reader. induction k as [|k IH]; intros reader.
  - cbn [reads fst snd]. simpl. rewrite Z.add_0_r. done.
  - cbn [reads]. cbn [read FileReader_Reader]. unfold FileReader.read.
    destruct (sys_read (FileReader.kernel reader) (FileReader._fd reader) size)
      as [result k1].
    set (reader1 := FileReader.Build _ _ k1).
    destruct (IH reader1) as (Hfd & Hpos & Hrange).
    destruct (reads k reader1 size) as [results reader']. cbn [fst snd] in *.
    split; [done|]. split.
    + rewrite Hpos. subst reader1. simpl.
      rewrite Z.add_mod_idemp_l by lia. f_equal. lia.
    + intros _. apply Hrange. subst reader1. simpl. apply Z.mod_pos_bound. lia.
Qed.

(** X14.  [FileReader] passes on what [::read] returned and adds it to its
    position in 64-bit unsigned arithmetic, the -1 of a failed read
    included: after any number of reads [tell()] is the position before
    them plus the sum of the values returned, modulo [2^64], so each error
    moves it back by one and an error at position 0 leaves [2^64 - 1].  The
    descriptor is not changed by reading, and [open] does not reset the
    position. *)
Theorem file_reader_position_is_the_sum_of_returns
    (reader : FileReader.t) (size : Z) (k : nat) (path : bytes) :
  0 ≤ FileReader.tell reader < 2 ^ 64 →
  let results := (@reads _ (FileReader_Reader sys_read) k reader size).1 in
  let reader' := (@reads _ (FileReader_Reader sys_read) k reader size).2 in
  FileReader.tell reader' = (FileReader.tell reader + returned results) `mod` 2 ^ 64 ∧
  FileReader._fd reader' = FileReader._fd reader ∧
  FileReader.tell (FileReader.open sys_open reader path).2 = FileReader.tell reader ∧
  ((FileReader.open sys_open reader path).1 = false →
   FileReader._fd (FileReader.open sys_open reader path).2 = FileReader._fd reader).
Proof.
  intros Hrange. cbv zeta.
  destruct (file_reads k reader size) as (Hfd & Hpos & Hkeeps).
  unfold FileReader.tell in *. split; [|split; [done|]].
  - rewrite <- Hpos. symmetry. apply Z.mod_small. by apply Hkeeps.
  - unfold FileReader.open.
    destruct (sys_open (FileReader.kernel reader) path) as [fd k1].
    case_decide; done.
Qed.

End FileReaderProperties.

(** ** main(), run() and test() *)

Section MainProperties.
Import RingBuffer.

Lemma foldl_addTarget (patterns : list bytes) (target : Target.t) :
  Target._targets (foldl Target.addTarget target patterns) =
  Target._targets target ++ patterns.
Proof.
  revert target. induction patterns as [|p patterns IH]; intros target; simpl.
  - by rewrite app_nil_r.
  - rewrite IH. simpl. by rewrite <- app_assoc.
Qed.


(** X16.  On a source that opens, [main] always comes to an end and returns
    0: over [L] bytes it makes [L/4096 + 1] read cycles, or [L/4096 + 2]
    when 4096 does not divide [L].  The patterns are the arguments after
    the source, each taken literally.  What it writes to the standard
    output is a whole number of 4096-byte slots, and every flush holds an
    occurrence of one of the patterns. *)
Theorem main_scans_a_source_that_opens
    (garbage : Z → Z → char) (fs : bytes → option bytes) (fuel : nat)
    (prog dev pattern : bytes) (patterns : list bytes) (content : bytes) :
  fs dev = Some content →
  (stream_cycles 4096 (length content) ≤ fuel)%nat →
  ∃ outs,
    Main.main garbage fs fuel (prog :: dev :: pattern :: patterns) = Some (0, Main.Ran outs) ∧
    length outs = stream_cycles 4096 (length content) ∧
    Z.of_nat (length (written (all_collected outs))) =
      Z.of_nat (length (all_collected outs)) * 4096 ∧
    ∀ out, out ∈ outs → collected out ≠ [] →
      ∃ c p, c ∈ collected out ∧ p ∈ pattern :: patterns ∧ occurs p (data c).
Proof.
  intros Hopen Hfuel. unfold Main.main.
  rewrite decide_False by (cbn [length]; lia).
  change ((prog :: dev :: pattern :: patterns) !!! 1%nat) with dev.
  change (drop 2 (prog :: dev :: pattern :: patterns)) with (pattern :: patterns).
  unfold Main.run. rewrite Hopen.
  set (target := foldl Target.addTarget Target.new (pattern :: patterns)).
  destruct (new garbage 16 4096 target) as [self|] eqn:Hnew.
  2:{ unfold new in Hnew. rewrite decide_True in Hnew by lia. discriminate Hnew. }
  destruct (new_Some _ _ _ _ _ Hnew) as (Hwf & EN & ES & _ & _ & ET & _).
  pose proof (new_anchored _ _ _ _ _ Hnew) as Hanch.
  clear Hnew.
  destruct (stream_scan fuel self (StreamReader.new content)) as [Hends _];
    [split; reflexivity | rewrite ES; lia |].
  rewrite ES in Hends.
  destruct Hends as (self' & reader' & outs & Hscan & Hlen); [exact Hfuel|].
  cbn [mbind option_bind]. rewrite Hscan. cbn [mbind option_bind].
  exists outs. split; [reflexivity|]. split; [exact Hlen|].
  apply scan_cycles in Hscan.
  pose proof (cycles_calls_whole (length outs) self (StreamReader.new content) Hwf) as Hwhole.
  pose proof (cycles_flush_holds_match (length outs) self (StreamReader.new content) Hwf Hanch)
    as Hholds.
  rewrite Hscan in Hwhole, Hholds. cbn [snd] in *. split.
  - rewrite (written_length _ (Z.to_nat 4096)); [lia|].
    eapply Forall_impl; [exact Hwhole|]. intros c [Hc _]. by rewrite ES in Hc.
  - intros out Hout Hsome. destruct (Hholds out Hout Hsome) as (c & p & Hc & Hp & Hocc).
    exists c, p. split; [done|]. split; [|done].
    rewrite ET in Hp. subst target. rewrite foldl_addTarget in Hp. exact Hp.
Qed.

Lemma block_fuel_mono garbage fuel fuel' input result :
  Main.block garbage fuel input = Some result → (fuel ≤ fuel')%nat →
  Main.block garbage fuel' input = Some result.
Proof.
  unfold Main.block, run. intros Hblock Hle.
  destruct (new garbage 4 4 target_ab) as [self|]; [|done]. simpl in *.
  destruct (scan fuel self _) as [[[self' reader'] outs]|] eqn:Hscan; [|done].
  by rewrite (scan_fuel_mono fuel fuel' _ _ _ Hscan Hle).
Qed.

(** X17.  [test()] does not pass: its first four blocks hold, each writing
    a ".", and the assertion of the fifth fails, so it returns -1.  The
    fifth block expects "aaab0000"; the code sends "4444ccccaaabbbbb", the
    three newest chunks followed by the oldest, which is what the block
    prints on the standard output before the assertion. *)
Theorem test_fails_at_its_fifth_block (garbage : Z → Z → char) (fuel : nat) :
  (14 ≤ fuel)%nat →
  Main.test garbage fuel = Some (-1, 4%nat, [str "4444ccccaaabbbbb"]).
Proof.
  intros Hfuel. unfold Main.test.
  assert (Main.block garbage 14 "000011112222aaab3333bbbb4444cccc5555aaab666677778888"
          = Some (str "11112222aaab3333cccc5555aaab6666")) as H1 by (vm_compute; reflexivity).
  assert (Main.block garbage 14 "000011112222aaab3333bbbbaaab666677778888"
          = Some (str "11112222aaab3333bbbbaaab6666")) as H2 by (vm_compute; reflexivity).
  assert (Main.block garbage 14 "000011112222aaab3333bbbb4444cccc"
          = Some (str "11112222aaab3333")) as H3 by (vm_compute; reflexivity).
  assert (Main.block garbage 14 "aaab0000111122223333bbbb4444cccc"
          = Some (str "aaab0000")) as H4 by (vm_compute; reflexivity).
  assert (Main.block garbage 14 "0000111122223333bbbb4444ccccaaab"
          = Some (str "4444ccccaaabbbbb")) as H5 by (vm_compute; reflexivity).
  rewrite (block_fuel_mono _ _ _ _ _ H1 Hfuel), (block_fuel_mono _ _ _ _ _ H2 Hfuel),
    (block_fuel_mono _ _ _ _ _ H3 Hfuel), (block_fuel_mono _ _ _ _ _ H4 Hfuel),
    (block_fuel_mono _ _ _ _ _ H5 Hfuel).
  clear. cbn [mbind option_bind].
  rewrite !bool_decide_eq_true_2 by reflexivity.
  rewrite bool_decide_eq_false_2 by (vm_compute; discriminate).
  reflexivity.
Qed.

End MainProperties.

(** ** The further properties at concrete states *)

Section MoreWitnesses.
Import RingBuffer.
Local Open Scope string_scope.

Local Ltac decided := apply (bool_decide_unpack _); vm_compute; exact I.

Lemma collectTo_again_sends_nothing_witness :
  shape ring_tracking ∧
  (collectTo (collectTo ring_tracking 1).1 3).2 = [] ∧
  (collectTo (collectTo ring_tracking 1).1 3).1 = (collectTo ring_tracking 1).1.
Proof.
  assert (shape ring_tracking) as Hshape by decided.
  split; [exact Hshape|].
  apply (collectTo_again_sends_nothing ring_tracking 1 3 Hshape); vm_compute; split; congruence.
Defined.

Lemma read_cycle_fills_one_slot_round_robin_witness :
  wf ring_tracking ∧
  _next_buffer_idx (cycles 6 ring_tracking more_input).1.1 = (0 + Z.of_nat 6) `mod` 4.
Proof.
  assert (wf ring_tracking) as Hwf by decided.
  split; [exact Hwf|].
  pose proof (read_cycle_fills_one_slot_round_robin ring_tracking more_input 6 Hwf) as Hthm.
  cbv zeta in Hthm.
  destruct (readFrom ring_tracking more_input) as [[[continue self'] reader'] out].
  destruct Hthm as (_ & _ & _ & Hnext). exact Hnext.
Defined.

Lemma sink_receives_whole_slots_witness :
  wf ring_tracking ∧
  Z.of_nat (length (written (all_collected (cycles 3 ring_tracking more_input).2))) =
  Z.of_nat (length (all_collected (cycles 3 ring_tracking more_input).2)) * 4.
Proof.
  assert (wf ring_tracking) as Hwf by decided.
  split; [exact Hwf|].
  exact (proj2 (sink_receives_whole_slots ring_tracking more_input 3 Hwf)).
Defined.

Lemma short_read_keeps_the_tail_of_the_slot_witness :
  wf ring_tracking ∧
  buffer_at (fill ring_tracking (StreamReader.new (str "33"))).1.1 0 = str "3300" ∧
  Collect 0 (str "3300") ∈ collected (readFrom ring_tracking (StreamReader.new (str "33"))).2.
Proof.
  assert (wf ring_tracking) as Hwf by decided.
  split; [exact Hwf|].
  pose proof (short_read_keeps_the_tail_of_the_slot ring_tracking
                (StreamReader.new (str "33")) Hwf) as Hthm.
  cbv zeta in Hthm.
  destruct Hthm as [Hcontent Hsent]; [vm_compute; discriminate|].
  split; [exact Hcontent|].
  apply Hsent; [vm_compute; reflexivity | vm_compute; discriminate].
Defined.

Lemma tracked_match_is_flushed_half_a_ring_later_witness :
  let reader := StreamReader.new (str "aaab0000") in
  new stars 4 4 target_ab = Some ring_fresh ∧
  0 ≤ _matched_buffer_idx (cycles 1 ring_fresh reader).1.1 ∧
  ∃ d, 1 ≤ d < 4 `quot` 2 ∧
       _next_buffer_idx (cycles 1 ring_fresh reader).1.1 =
       (_matched_buffer_idx (cycles 1 ring_fresh reader).1.1 + d) `mod` 4.
Proof.
  intros reader.
  assert (new stars 4 4 target_ab = Some ring_fresh) as Hnew by (vm_compute; reflexivity).
  assert (0 ≤ _matched_buffer_idx (cycles 1 ring_fresh reader).1.1) as Hm
    by (vm_compute; discriminate).
  split; [exact Hnew|]. split; [exact Hm|].
  pose proof (tracked_match_is_flushed_half_a_ring_later stars 4 4 target_ab ring_fresh
                reader 1 Hnew) as Hthm.
  destruct (cycles 1 ring_fresh reader) as [[self reader'] outs].
  cbn [fst snd] in *. destruct (Hthm Hm) as (d & Hd & Hcursor & _).
  exists d. split; [exact Hd | exact Hcursor].
Defined.

Lemma every_flush_holds_an_occurrence_witness :
  let reader := StreamReader.new (str "000011112222aaab3333") in
  let out := Output [Collect 1 (str "1111"); Collect 2 (str "2222");
                     Collect 3 (str "aaab"); Collect 0 (str "3333")] [] in
  new stars 4 4 target_ab = Some ring_fresh ∧
  out ∈ (cycles 5 ring_fresh reader).2 ∧
  collected out ≠ [] ∧
  ∃ c pattern,
    c ∈ collected out ∧ pattern ∈ Target._targets target_ab ∧ occurs pattern (data c).
Proof.
  intros reader out.
  assert (new stars 4 4 target_ab = Some ring_fresh) as Hnew by (vm_compute; reflexivity).
  assert (out ∈ (cycles 5 ring_fresh reader).2) as Hin.
  { apply (list_elem_of_lookup_2 _ 4%nat). vm_compute. reflexivity. }
  assert (collected out ≠ []) as Hsome by discriminate.
  split; [exact Hnew|]. split; [exact Hin|]. split; [exact Hsome|].
  exact (every_flush_holds_an_occurrence stars 4 4 target_ab ring_fresh reader 5 Hnew
           out Hin Hsome).
Defined.

Lemma sink_receives_fills_in_order_at_most_once_witness :
  let reader := StreamReader.new (str "000011112222aaab3333") in
  wf ring_fresh ∧
  (∀ i, 0 ≤ i < 4 → ¬ pending ring_fresh i) ∧
  Forall (λ x, 0 < nread x.1) (fills 5 ring_fresh reader) ∧
  data <$> all_collected (cycles 5 ring_fresh reader).2
    `sublist_of` (snd <$> fills 5 ring_fresh reader).
Proof.
  intros reader.
  assert (wf ring_fresh) as Hwf by decided.
  assert (∀ i, 0 ≤ i < 4 → ¬ pending ring_fresh i) as Hnone.
  { intros i Hi. assert (i = 0 ∨ i = 1 ∨ i = 2 ∨ i = 3) as Hcases by lia.
    destruct Hcases as [->|[->|[->| ->]]]; vm_compute; discriminate. }
  assert (Forall (λ x, 0 < nread x.1) (fills 5 ring_fresh reader)) as Hdata
    by (vm_compute; repeat constructor).
  split; [exact Hwf|]. split; [exact Hnone|]. split; [exact Hdata|].
  exact (proj1 (sink_receives_fills_in_order_at_most_once ring_fresh reader 5
                  Hwf Hnone Hdata)).
Defined.

Lemma no_occurrence_inside_a_read_no_output_witness :
  let reader := StreamReader.new (str "xxxabxxx") in
  occurs (str "ab") (str "xxxabxxx") ∧
  wf ring_fresh ∧
  _matched_buffer_idx ring_fresh < 0 ∧
  Forall (λ x, ∀ pattern, pattern ∈ Target._targets (_target ring_fresh) →
                 ¬ occurs pattern (take (Z.to_nat (nread x.1)) x.2))
         (fills 3 ring_fresh reader) ∧
  all_collected (cycles 3 ring_fresh reader).2 = [].
Proof.
  intros reader.
  assert (wf ring_fresh) as Hwf by decided.
  assert (_matched_buffer_idx ring_fresh < 0) as Hidle by (vm_compute; reflexivity).
  assert (Forall (λ x, ∀ pattern, pattern ∈ Target._targets (_target ring_fresh) →
                         ¬ occurs pattern (take (Z.to_nat (nread x.1)) x.2))
                 (fills 3 ring_fresh reader)) as Hmiss.
  { assert (∀ probe, memmem probe (str "ab") = None →
              ∀ pattern, pattern ∈ Target._targets (_target ring_fresh) →
                ¬ occurs pattern probe) as Hnone.
    { intros probe Hmem pattern Hin Hocc.
      apply list_elem_of_singleton in Hin as ->.
      apply memmem_is_Some in Hocc as [? Hocc]. congruence. }
    repeat constructor; apply Hnone; vm_compute; reflexivity. }
  split; [exists (str "xxx"), (str "xxx"); reflexivity|].
  split; [exact Hwf|]. split; [exact Hidle|]. split; [exact Hmiss|].
  exact (proj1 (no_occurrence_inside_a_read_no_output ring_fresh reader 3 Hwf Hidle Hmiss)).
Defined.


Lemma loop_over_a_stream_ends_witness :
  0 < _buffer_size ring_fresh ∧
  scan 2 ring_fresh (StreamReader.new (str "0123456789")) = None.
Proof.
  assert (0 < _buffer_size ring_fresh) as Hsize by (vm_compute; reflexivity).
  split; [exact Hsize|].
  apply (loop_over_a_stream_ends ring_fresh (str "0123456789") 2 Hsize).
  vm_compute. lia.
Defined.

Lemma matched_line_reports_the_end_of_the_chunk_witness :
  let reader := StreamReader.new (str "ab") in
  good reader ∧
  0 < _buffer_size ring_fresh ∧
  Matched (2 ^ 64 - 1) ∈ logged (readFrom ring_fresh reader).2 ∧
  2 ^ 64 - 1 =
    if decide (Z.of_nat (length (StreamReader.rest reader)) < _buffer_size ring_fresh)
    then 2 ^ 64 - 1
    else StreamReader.gpos reader + _buffer_size ring_fresh.
Proof.
  intros reader.
  assert (good reader) as Hgood by done.
  assert (0 < _buffer_size ring_fresh) as Hsize by (vm_compute; reflexivity).
  assert (Matched (2 ^ 64 - 1) ∈ logged (readFrom ring_fresh reader).2) as Hin
    by (vm_compute; left).
  split; [exact Hgood|]. split; [exact Hsize|]. split; [exact Hin|].
  exact (matched_line_reports_the_end_of_the_chunk ring_fresh reader _ Hgood Hsize Hin).
Defined.

Lemma flush_sends_at_most_the_ring_witness :
  wf ring_tracking ∧
  Z.of_nat (length (collected (readFrom ring_tracking more_input).2)) ≤ 4.
Proof.
  assert (wf ring_tracking) as Hwf by decided.
  split; [exact Hwf|].
  exact (proj1 (proj2 (flush_sends_at_most_the_ring ring_tracking more_input Hwf))).
Defined.

Lemma file_reader_position_is_the_sum_of_returns_witness :
  let failing : unit → Z → Z → read_result * unit := λ k _ _, (ReadResult (-1) [], k) in
  let refusing : unit → bytes → Z * unit := λ k _, (-1, k) in
  0 ≤ FileReader.tell (FileReader.new tt) < 2 ^ 64 ∧
  FileReader.tell (@reads _ (FileReader_Reader failing) 1 (FileReader.new tt) 4096).2 =
    (0 + returned (@reads _ (FileReader_Reader failing) 1 (FileReader.new tt) 4096).1)
    `mod` 2 ^ 64.
Proof.
  intros failing refusing.
  assert (0 ≤ FileReader.tell (FileReader.new tt) < 2 ^ 64) as Hrange
    by (vm_compute; split; congruence).
  split; [exact Hrange|].
  exact (proj1 (file_reader_position_is_the_sum_of_returns refusing failing
                  (FileReader.new tt) 4096 1 [] Hrange)).
Defined.


Lemma main_scans_a_source_that_opens_witness :
  let fs : bytes → option bytes := λ _, Some (str "xxabxx") in
  fs (str "/dev/sda") = Some (str "xxabxx") ∧
  (stream_cycles 4096 (length (str "xxabxx")) ≤ 2)%nat ∧
  ∃ outs,
    Main.main stars fs 2 [str "bgrep"; str "/dev/sda"; str "ab"] = Some (0, Main.Ran outs) ∧
    length outs = stream_cycles 4096 (length (str "xxabxx")).
Proof.
  intros fs.
  assert (fs (str "/dev/sda") = Some (str "xxabxx")) as Hopen by reflexivity.
  assert (stream_cycles 4096 (length (str "xxabxx")) ≤ 2)%nat as Hfuel
    by (vm_compute; lia).
  split; [exact Hopen|]. split; [exact Hfuel|].
  destruct (main_scans_a_source_that_opens stars fs 2 (str "bgrep") (str "/dev/sda")
              (str "ab") [] (str "xxabxx") Hopen Hfuel) as (outs & Hmain & Hlen & _).
  exists outs. split; [exact Hmain | exact Hlen].
Defined.

Lemma test_fails_at_its_fifth_block_witness :
  (14 ≤ 14)%nat ∧
  Main.test stars 14 = Some (-1, 4%nat, [str "4444ccccaaabbbbb"]).
Proof.
  assert (14 ≤ 14)%nat as Hfuel by lia.
  split; [exact Hfuel|].
  exact (test_fails_at_its_fifth_block stars 14 Hfuel).
Defined.

End MoreWitnesses.
